(** * FontOptions and FontVariation (juce_graphics/fonts/juce_FontOptions.h)

    A shallow embedding of the value types declared in the header:
    [FontVariation::Tag], [FontVariation] and [FontOptions], with the
    copy-returning [with*] mutators and the accessors, followed by the
    properties of the specification that can be settled on them.

    Conventions.
    - [float] is IEEE-754 binary32, taken as [spec_float]; only the
      comparisons [==], [<], [>], [>=] of the header are needed, and they are
      the ones of [SFcompare] (a NaN compares unordered with everything).
    - [uint32_t] is [Z]; the one conversion of the header
      ([static_cast<uint32_t>] of an [int32]) is written out as a reduction
      modulo [2^32].
    - [String] is [string]; [std::vector] is [list]; [std::optional] is
      [option].
    - [jassert] and [jassertfalse] only report in debug builds and then
      carry on, so they have no effect on the values computed here. *)

From Stdlib Require Import ZArith Bool String Ascii SpecFloat Lia.
From stdpp Require Import base tactics option list.

Local Open Scope Z_scope.

(** ** binary32 values and the comparisons of C++ *)

Module Float32.

Definition float : Type := spec_float.

Definition prec : Z := 24.
Definition emax : Z := 128.

(** The values of [spec_float] that are binary32 numbers. *)
Definition is_float32 (x : float) : bool := valid_binary prec emax x.

Definition nan : float := S754_nan.
Definition zero : float := S754_zero false.                      (* 0.0f *)
Definition one : float := S754_finite false 8388608 (-23).       (* 1.0f *)
Definition minus_one : float := S754_finite true 8388608 (-23).  (* -1.0f *)

(** [a == b] *)
Definition eqb (a b : float) : bool := SFeqb a b.
(** [a < b] *)
Definition ltb (a b : float) : bool := SFltb a b.
(** [a > b] *)
Definition gtb (a b : float) : bool := SFltb b a.
(** [a >= b] *)
Definition geb (a b : float) : bool := SFleb b a.

Definition is_nan (x : float) : bool :=
  match x with S754_nan => true | _ => false end.

End Float32.

Import Float32.

(** ** FontVariation *)

Module FontVariation.

Module Tag.

(** [struct Tag { uint32_t tag = 0; }] *)
Record Tag : Type := Build { tag : Z }.

(** [Tag() = default] *)
Definition default : Tag := Build 0.

(** [explicit Tag (uint32_t i) : tag (i) {}] *)
Definition of_uint32 (i : Z) : Tag := Build i.

(** [operator==]: [tag == other.tag] *)
Definition eqb (a b : Tag) : bool := Z.eqb (tag a) (tag b).
(** [operator!=]: [tag != other.tag] *)
Definition neb (a b : Tag) : bool := negb (Z.eqb (tag a) (tag b)).
(** [operator<]: [tag < other.tag] *)
Definition ltb (a b : Tag) : bool := Z.ltb (tag a) (tag b).

End Tag.

(** [struct FontVariation { Tag tag; float value; }] *)
Record FontVariation : Type := Build { tag : Tag.Tag; value : float }.

(** [FontVariation (Tag variationTag, float variationValue)] *)
Definition make (variationTag : Tag.Tag) (variationValue : float) : FontVariation :=
  Build variationTag variationValue.

(** [FontVariation (juce::int32 variationTag, float variationValue)]:
    the tag is [static_cast<uint32_t> (variationTag)]. *)
Definition make_int32 (variationTag : Z) (variationValue : float) : FontVariation :=
  Build (Tag.of_uint32 (variationTag mod 2 ^ 32)) variationValue.

(** [operator==]: [tag == other.tag && value == other.value] *)
Definition eqb (a b : FontVariation) : bool :=
  Tag.eqb (tag a) (tag b) && Float32.eqb (value a) (value b).

(** [operator!=]: [! operator== (other)] *)
Definition neb (a b : FontVariation) : bool := negb (eqb a b).

(** [operator<] of a [std::tuple] of two references, as the standard
    defines it: the first components decide unless neither is less than
    the other, and then the second components decide. *)
Definition tie_lt (a1 : Z) (a2 : float) (b1 : Z) (b2 : float) : bool :=
  if Z.ltb a1 b1 then true
  else if Z.ltb b1 a1 then false
  else Float32.ltb a2 b2.

(** [operator<]:
    [std::tie (tag.tag, value) < std::tie (other.tag.tag, other.value)] *)
Definition ltb (a b : FontVariation) : bool :=
  tie_lt (Tag.tag (tag a)) (value a) (Tag.tag (tag b)) (value b).

End FontVariation.

Export FontVariation(FontVariation).

(** ** The types the header takes from elsewhere *)

(** Modelled from the spec: [Typeface] is declared outside this header. The
    options only hold a shared handle to it and read its name and style; a
    handle is null or points to one typeface object, and two handles are the
    same handle when they point to the same object, which [address] stands
    for. *)
Record Typeface : Type := mkTypeface {
  address : positive;
  tf_getName : string;
  tf_getStyle : string
}.

(** [Typeface::Ptr]; [None] is [nullptr]. *)
Definition Typeface_Ptr : Type := option Typeface.

(** Modelled from the spec: [TypefaceMetricsKind] is an enumeration declared
    outside this header; the header names its value [portable]. *)
Inductive TypefaceMetricsKind : Type := legacy | portable.

(** ** FontOptions *)

(** The data members, in the order of their declaration. *)
Record FontOptions : Type := mkFontOptions {
  name : string;
  style : string;
  typeface : Typeface_Ptr;
  fallbacks : list string;
  metricsKind : TypefaceMetricsKind;
  height : float;
  pointHeight : float;
  tracking : float;
  horizontalScale : float;
  ascentOverride : float;
  descentOverride : float;
  fallbackEnabled : bool;
  underlined : bool;
  variations : list FontVariation
}.

(** The default member initialisers of the class. *)
Definition default_members : FontOptions := {|
  name := EmptyString;
  style := EmptyString;
  typeface := None;
  fallbacks := [];
  metricsKind := portable;
  height := minus_one;
  pointHeight := minus_one;
  tracking := zero;
  horizontalScale := one;
  ascentOverride := minus_one;
  descentOverride := minus_one;
  fallbackEnabled := true;
  underlined := false;
  variations := []
|}.

(** A pointer to a data member, [&FontOptions::m]. *)
Inductive Member : Type :=
| M_name | M_style | M_typeface | M_fallbacks | M_metricsKind
| M_height | M_pointHeight | M_tracking | M_horizontalScale
| M_ascentOverride | M_descentOverride | M_fallbackEnabled | M_underlined
| M_variations.

#[global] Instance Member_eq_dec : EqDecision Member.
Proof. solve_decision. Defined.

(** The type of the member a pointer designates. *)
Definition member_type (m : Member) : Type :=
  match m with
  | M_name | M_style => string
  | M_typeface => Typeface_Ptr
  | M_fallbacks => list string
  | M_metricsKind => TypefaceMetricsKind
  | M_height | M_pointHeight | M_tracking | M_horizontalScale
  | M_ascentOverride | M_descentOverride => float
  | M_fallbackEnabled | M_underlined => bool
  | M_variations => list FontVariation
  end.

(** Reading through a member pointer: [o.*m]. *)
Definition member (m : Member) (o : FontOptions) : member_type m :=
  match m return member_type m with
  | M_name => name o
  | M_style => style o
  | M_typeface => typeface o
  | M_fallbacks => fallbacks o
  | M_metricsKind => metricsKind o
  | M_height => height o
  | M_pointHeight => pointHeight o
  | M_tracking => tracking o
  | M_horizontalScale => horizontalScale o
  | M_ascentOverride => ascentOverride o
  | M_descentOverride => descentOverride o
  | M_fallbackEnabled => fallbackEnabled o
  | M_underlined => underlined o
  | M_variations => variations o
  end.

(** Assignment through a member pointer, on a copy: [c.*m = x; return c]. *)
Definition assign (c : FontOptions) (m : Member) : member_type m -> FontOptions :=
  let '(mkFontOptions n s t f k h p tr hs ao do fe u v) := c in
  match m return member_type m -> FontOptions with
  | M_name => fun x => mkFontOptions x s t f k h p tr hs ao do fe u v
  | M_style => fun x => mkFontOptions n x t f k h p tr hs ao do fe u v
  | M_typeface => fun x => mkFontOptions n s x f k h p tr hs ao do fe u v
  | M_fallbacks => fun x => mkFontOptions n s t x k h p tr hs ao do fe u v
  | M_metricsKind => fun x => mkFontOptions n s t f x h p tr hs ao do fe u v
  | M_height => fun x => mkFontOptions n s t f k x p tr hs ao do fe u v
  | M_pointHeight => fun x => mkFontOptions n s t f k h x tr hs ao do fe u v
  | M_tracking => fun x => mkFontOptions n s t f k h p x hs ao do fe u v
  | M_horizontalScale => fun x => mkFontOptions n s t f k h p tr x ao do fe u v
  | M_ascentOverride => fun x => mkFontOptions n s t f k h p tr hs x do fe u v
  | M_descentOverride => fun x => mkFontOptions n s t f k h p tr hs ao x fe u v
  | M_fallbackEnabled => fun x => mkFontOptions n s t f k h p tr hs ao do x u v
  | M_underlined => fun x => mkFontOptions n s t f k h p tr hs ao do fe x v
  | M_variations => fun x => mkFontOptions n s t f k h p tr hs ao do fe u x
  end.

(** Modelled from the spec: [withMember (copy, &FontOptions::m, x)] is a
    helper defined outside this header; every mutator that calls it is
    documented to return a copy of the options with that one member replaced
    by the new value. *)
Definition withMember (copy : FontOptions) (m : Member) (x : member_type m) : FontOptions :=
  assign copy m x.

(** [std::optional<float>::value_or] *)
Definition value_or (x : option float) (d : float) : float :=
  match x with Some v => v | None => d end.

(** [withName]: ignored, with the object returned as it is, when the options
    hold a typeface. *)
Definition withName (this : FontOptions) (x : string) : FontOptions :=
  match typeface this with
  | None => withMember this M_name x
  | Some _ => this
  end.

(** [withStyle] *)
Definition withStyle (this : FontOptions) (x : string) : FontOptions :=
  match typeface this with
  | None => withMember this M_style x
  | Some _ => this
  end.

(** [withTypeface] *)
Definition withTypeface (this : FontOptions) (x : Typeface_Ptr) : FontOptions :=
  let result :=
    match x with
    | Some tf => withStyle (withName this (tf_getName tf)) (tf_getStyle tf)
    | None => this
    end in
  withMember result M_typeface x.

Definition withFallbacks (this : FontOptions) (x : list string) : FontOptions :=
  withMember this M_fallbacks x.

Definition withFallbackEnabled (this : FontOptions) (x : bool) : FontOptions :=
  withMember this M_fallbackEnabled x.

(** [withHeight]: [copy.height = x; copy.pointHeight = -1.0f] *)
Definition withHeight (this : FontOptions) (x : float) : FontOptions :=
  let copy := this in
  let copy := assign copy M_height x in
  let copy := assign copy M_pointHeight minus_one in
  copy.

(** [withPointHeight]: [copy.pointHeight = x; copy.height = -1.0f] *)
Definition withPointHeight (this : FontOptions) (x : float) : FontOptions :=
  let copy := this in
  let copy := assign copy M_pointHeight x in
  let copy := assign copy M_height minus_one in
  copy.

Definition withKerningFactor (this : FontOptions) (x : float) : FontOptions :=
  withMember this M_tracking x.

Definition withHorizontalScale (this : FontOptions) (x : float) : FontOptions :=
  withMember this M_horizontalScale x.

Definition withUnderline (this : FontOptions) (x : bool) : FontOptions :=
  withMember this M_underlined x.

Definition withMetricsKind (this : FontOptions) (x : TypefaceMetricsKind) : FontOptions :=
  withMember this M_metricsKind x.

Definition withAscentOverride (this : FontOptions) (x : option float) : FontOptions :=
  withMember this M_ascentOverride (value_or x minus_one).

Definition withDescentOverride (this : FontOptions) (x : option float) : FontOptions :=
  withMember this M_descentOverride (value_or x minus_one).

Definition withVariations (this : FontOptions) (x : list FontVariation) : FontOptions :=
  withMember this M_variations x.

(** The predicate of the [std::find_if] in [withVariation]: [v.tag == tag]. *)
Definition has_tag (t : FontVariation.Tag.Tag) (v : FontVariation) : Prop :=
  FontVariation.Tag.eqb (FontVariation.tag v) t = true.

#[global] Instance has_tag_dec t v : Decision (has_tag t v).
Proof. unfold has_tag. apply _. Defined.

(** [withVariation]: the first entry whose tag is [tag] gets the new value
    ([it->value = value]); when there is none the new entry is pushed at the
    back. *)
Definition withVariation (this : FontOptions) (t : FontVariation.Tag.Tag) (v : float)
  : FontOptions :=
  let copy := this in
  let vars := variations copy in
  match list_find (has_tag t) vars with
  | Some (it, found) =>
      assign copy M_variations
        (<[it := FontVariation.Build (FontVariation.tag found) v]> vars)
  | None =>
      assign copy M_variations (vars ++ [FontVariation.Build t v])
  end.

(** Accessors *)
Definition getName (this : FontOptions) : string := name this.
Definition getStyle (this : FontOptions) : string := style this.
Definition getTypeface (this : FontOptions) : Typeface_Ptr := typeface this.
Definition getFallbacks (this : FontOptions) : list string := fallbacks this.
Definition getHeight (this : FontOptions) : float := height this.
Definition getPointHeight (this : FontOptions) : float := pointHeight this.
Definition getKerningFactor (this : FontOptions) : float := tracking this.
Definition getHorizontalScale (this : FontOptions) : float := horizontalScale this.
Definition getFallbackEnabled (this : FontOptions) : bool := fallbackEnabled this.
Definition getUnderline (this : FontOptions) : bool := underlined this.
Definition getMetricsKind (this : FontOptions) : TypefaceMetricsKind := metricsKind this.
Definition getVariations (this : FontOptions) : list FontVariation := variations this.

(** [ascentOverride >= 0.0f ? std::make_optional (ascentOverride) : std::nullopt] *)
Definition getAscentOverride (this : FontOptions) : option float :=
  if geb (ascentOverride this) zero then Some (ascentOverride this) else None.

Definition getDescentOverride (this : FontOptions) : option float :=
  if geb (descentOverride this) zero then Some (descentOverride this) else None.

(** ** Notions the properties are stated with *)

(** The number of entries of a variation list that carry the tag [t]. *)
Definition count_tag (t : FontVariation.Tag.Tag) (vars : list FontVariation) : nat :=
  length (filter (has_tag t) vars).

(** The position of the first entry that carries the tag [t]. *)
Definition position_of (t : FontVariation.Tag.Tag) (vars : list FontVariation) : option nat :=
  fst <$> list_find (has_tag t) vars.

(** A height member is set when it is non-negative: [h >= 0.0f]. *)
Definition is_set (h : float) : bool := geb h zero.

Definition exactly_one_height_set (o : FontOptions) : bool :=
  xorb (is_set (height o)) (is_set (pointHeight o)).

(** One call of a mutator, with its argument. *)
Inductive Call : Type :=
| call_withName (x : string)
| call_withStyle (x : string)
| call_withTypeface (x : Typeface_Ptr)
| call_withFallbacks (x : list string)
| call_withFallbackEnabled (x : bool)
| call_withHeight (x : float)
| call_withPointHeight (x : float)
| call_withKerningFactor (x : float)
| call_withHorizontalScale (x : float)
| call_withUnderline (x : bool)
| call_withMetricsKind (x : TypefaceMetricsKind)
| call_withAscentOverride (x : option float)
| call_withDescentOverride (x : option float)
| call_withVariations (x : list FontVariation)
| call_withVariation (t : FontVariation.Tag.Tag) (v : float).

Definition call (o : FontOptions) (c : Call) : FontOptions :=
  match c with
  | call_withName x => withName o x
  | call_withStyle x => withStyle o x
  | call_withTypeface x => withTypeface o x
  | call_withFallbacks x => withFallbacks o x
  | call_withFallbackEnabled x => withFallbackEnabled o x
  | call_withHeight x => withHeight o x
  | call_withPointHeight x => withPointHeight o x
  | call_withKerningFactor x => withKerningFactor o x
  | call_withHorizontalScale x => withHorizontalScale o x
  | call_withUnderline x => withUnderline o x
  | call_withMetricsKind x => withMetricsKind o x
  | call_withAscentOverride x => withAscentOverride o x
  | call_withDescentOverride x => withDescentOverride o x
  | call_withVariations x => withVariations o x
  | call_withVariation t v => withVariation o t v
  end.

(** A chain of calls [o.with..(..).with..(..)], leftmost call first. *)
Definition chain (o : FontOptions) (cs : list Call) : FontOptions :=
  fold_left call cs o.

(** The condition the two height setters assert on their argument: [x > 0]. *)
Definition height_asserted (c : Call) : bool :=
  match c with
  | call_withHeight x | call_withPointHeight x => gtb x zero
  | _ => true
  end.

(** The members a mutator writes: its own member and, for the two height
    setters and for [withTypeface], the members documented to go with it. *)
Definition targets (c : Call) : list Member :=
  match c with
  | call_withName _ => [M_name]
  | call_withStyle _ => [M_style]
  | call_withTypeface None => [M_typeface]
  | call_withTypeface (Some _) => [M_name; M_style; M_typeface]
  | call_withFallbacks _ => [M_fallbacks]
  | call_withFallbackEnabled _ => [M_fallbackEnabled]
  | call_withHeight _ | call_withPointHeight _ => [M_height; M_pointHeight]
  | call_withKerningFactor _ => [M_tracking]
  | call_withHorizontalScale _ => [M_horizontalScale]
  | call_withUnderline _ => [M_underlined]
  | call_withMetricsKind _ => [M_metricsKind]
  | call_withAscentOverride _ => [M_ascentOverride]
  | call_withDescentOverride _ => [M_descentOverride]
  | call_withVariations _ | call_withVariation _ _ => [M_variations]
  end.

(** [o'] differs from [o] at most in the members listed in [ms]. *)
Definition unchanged_except (ms : list Member) (o o' : FontOptions) : Prop :=
  forall m : Member, m ∉ ms -> member m o' = member m o.

(** ** The comparison operators of the member types *)

(** A type with the operators [==] and [<] of C++. *)
Class Comparable (A : Type) : Type := {
  equal : A -> A -> bool;
  less : A -> A -> bool
}.

(** [uint32_t] *)
#[global] Instance Z_Comparable : Comparable Z :=
  {| equal := Z.eqb; less := Z.ltb |}.

#[global] Instance string_Comparable : Comparable string :=
  {| equal := String.eqb; less := String.ltb |}.

#[global] Instance float_Comparable : Comparable float :=
  {| equal := Float32.eqb; less := Float32.ltb |}.

(** [false < true], as for the integers 0 and 1. *)
#[global] Instance bool_Comparable : Comparable bool :=
  {| equal := Bool.eqb; less := fun a b => negb a && b |}.

(** The enumerators in the order of their values. *)
Definition metricsKind_value (k : TypefaceMetricsKind) : Z :=
  match k with legacy => 0 | portable => 1 end.

#[global] Instance metricsKind_Comparable : Comparable TypefaceMetricsKind :=
  {| equal := fun a b => Z.eqb (metricsKind_value a) (metricsKind_value b);
     less := fun a b => Z.ltb (metricsKind_value a) (metricsKind_value b) |}.

(** The address a handle holds; the null handle holds 0. *)
Definition handle_address (p : Typeface_Ptr) : Z :=
  match p with None => 0 | Some tf => Zpos (address tf) end.

#[global] Instance handle_Comparable : Comparable Typeface_Ptr :=
  {| equal := fun a b => Z.eqb (handle_address a) (handle_address b);
     less := fun a b => Z.ltb (handle_address a) (handle_address b) |}.

(** The operators of [FontVariation] are the ones the header defines. *)
#[global] Instance FontVariation_Comparable : Comparable FontVariation :=
  {| equal := FontVariation.eqb; less := FontVariation.ltb |}.

(** [std::vector]: [==] compares the sizes and then the elements in turn. *)
Fixpoint vector_equal {A : Type} `{Comparable A} (a b : list A) : bool :=
  match a, b with
  | [], [] => true
  | x :: a', y :: b' => equal x y && vector_equal a' b'
  | _, _ => false
  end.

(** [std::vector]: [<] is [std::lexicographical_compare]. *)
Fixpoint vector_less {A : Type} `{Comparable A} (a b : list A) : bool :=
  match a, b with
  | _, [] => false
  | [], _ :: _ => true
  | x :: a', y :: b' =>
      if less x y then true
      else if less y x then false
      else vector_less a' b'
  end.

#[global] Instance vector_Comparable {A : Type} `{Comparable A} : Comparable (list A) :=
  {| equal := vector_equal; less := vector_less |}.

(** [std::tuple]: [==] compares every component, [<] is lexicographic and
    uses only the [<] of the components. A tuple of more than two
    components is the pair of its first component and the tuple of the
    others. *)
#[global] Instance tuple_Comparable {A B : Type} `{Comparable A} `{Comparable B}
  : Comparable (A * B) :=
  {| equal := fun a b => equal (fst a) (fst b) && equal (snd a) (snd b);
     less := fun a b =>
       if less (fst a) (fst b) then true
       else if less (fst b) (fst a) then false
       else less (snd a) (snd b) |}.

(** The laws the operators of a type obey on its values without a NaN:
    [ordered a] says that no float inside [a] is a NaN. *)
Class Lawful (A : Type) `{Comparable A} : Type := {
  ordered : A -> Prop;
  equal_refl : forall a, ordered a -> equal a a = true;
  less_total : forall a b, ordered a -> ordered b ->
    less a b = true \/ equal a b = true \/ less b a = true;
  equal_not_less : forall a b, equal a b = true ->
    less a b = false /\ less b a = false;
  less_asym : forall a b, less a b = true -> less b a = false
}.

(** An axis setting as the pair of the integer of its tag and its value. *)
Definition as_pair (p : FontVariation) : Z * float :=
  (FontVariation.Tag.tag (FontVariation.tag p), FontVariation.value p).

(** Modelled from the spec: [tie] and the six comparison operators of
    [FontOptions] are declared in the header and defined outside it. They
    compare "a canonical tuple of all fields in a fixed, stable field
    order", taken here in the order of declaration of the members. *)
Definition tie (o : FontOptions) :=
  (name o, (style o, (typeface o, (fallbacks o, (metricsKind o,
  (height o, (pointHeight o, (tracking o, (horizontalScale o,
  (ascentOverride o, (descentOverride o, (fallbackEnabled o,
  (underlined o, variations o))))))))))))).

(** Modelled from the spec: [operator==] of [FontOptions], on the tuples. *)
Definition FontOptions_eq (a b : FontOptions) : bool := equal (tie a) (tie b).
(** Modelled from the spec: [operator!=]. *)
Definition FontOptions_ne (a b : FontOptions) : bool := negb (equal (tie a) (tie b)).
(** Modelled from the spec: [operator<]. *)
Definition FontOptions_lt (a b : FontOptions) : bool := less (tie a) (tie b).
(** Modelled from the spec: [operator<=], which on tuples is [!(b < a)]. *)
Definition FontOptions_le (a b : FontOptions) : bool := negb (less (tie b) (tie a)).
(** Modelled from the spec: [operator>]. *)
Definition FontOptions_gt (a b : FontOptions) : bool := less (tie b) (tie a).
(** Modelled from the spec: [operator>=], which on tuples is [!(a < b)]. *)
Definition FontOptions_ge (a b : FontOptions) : bool := negb (less (tie a) (tie b)).

(** No float of the options is a NaN. *)
Definition nan_free (o : FontOptions) : bool :=
  negb (is_nan (height o)) && negb (is_nan (pointHeight o))
  && negb (is_nan (tracking o)) && negb (is_nan (horizontalScale o))
  && negb (is_nan (ascentOverride o)) && negb (is_nan (descentOverride o))
  && forallb (fun v => negb (is_nan (FontVariation.value v))) (variations o).

(** Exactly one of three conditions holds. *)
Definition exactly_one_of (p q r : bool) : Prop :=
  (p = true /\ q = false /\ r = false)
  \/ (p = false /\ q = true /\ r = false)
  \/ (p = false /\ q = false /\ r = true).

(** ** The comparisons as the specification words them *)

(** Comparison of the raw integer values of two tags. *)
Definition raw_eq (a b : FontVariation.Tag.Tag) : Prop :=
  FontVariation.Tag.tag a = FontVariation.Tag.tag b.
Definition raw_lt (a b : FontVariation.Tag.Tag) : Prop :=
  FontVariation.Tag.tag a < FontVariation.Tag.tag b.

(** Comparison of two axis settings as the pairs (tag, value): equal when
    both components are, and ordered by the tags first, the values deciding
    between equal tags. *)
Definition pair_eq (p q : FontVariation) : Prop :=
  raw_eq (FontVariation.tag p) (FontVariation.tag q)
  /\ Float32.eqb (FontVariation.value p) (FontVariation.value q) = true.
Definition pair_lex_lt (p q : FontVariation) : Prop :=
  raw_lt (FontVariation.tag p) (FontVariation.tag q)
  \/ (raw_eq (FontVariation.tag p) (FontVariation.tag q)
      /\ Float32.ltb (FontVariation.value p) (FontVariation.value q) = true).

(** ** Notions for how calls combine *)

(** The members a mutator reads before it writes: [withName], [withStyle]
    and [withTypeface] with a handle that is not null test the typeface
    held, and [withVariation] searches the variations. *)
Definition reads (c : Call) : list Member :=
  match c with
  | call_withName _ | call_withStyle _ | call_withTypeface (Some _) => [M_typeface]
  | call_withVariation _ _ => [M_variations]
  | _ => []
  end.

Definition no_common_member (a b : list Member) : bool :=
  forallb (fun m => negb (bool_decide (m ∈ b))) a.

(** Two calls neither of which writes a member the other reads or writes. *)
Definition independent (c1 c2 : Call) : bool :=
  no_common_member (targets c1) (targets c2)
  && no_common_member (reads c1) (targets c2)
  && no_common_member (reads c2) (targets c1).

(** [c2] is a call of the mutator of [c1], or of one that writes all that
    [c1] wrote: the two height setters, one after the other in any order;
    [withVariations] after [withVariation]; [withVariation] after
    [withVariation] for the same tag. [withTypeface] is left out. *)
Definition overrides (c2 c1 : Call) : bool :=
  match c1, c2 with
  | call_withName _, call_withName _
  | call_withStyle _, call_withStyle _
  | call_withFallbacks _, call_withFallbacks _
  | call_withFallbackEnabled _, call_withFallbackEnabled _
  | (call_withHeight _ | call_withPointHeight _),
    (call_withHeight _ | call_withPointHeight _)
  | call_withKerningFactor _, call_withKerningFactor _
  | call_withHorizontalScale _, call_withHorizontalScale _
  | call_withUnderline _, call_withUnderline _
  | call_withMetricsKind _, call_withMetricsKind _
  | call_withAscentOverride _, call_withAscentOverride _
  | call_withDescentOverride _, call_withDescentOverride _
  | (call_withVariations _ | call_withVariation _ _), call_withVariations _ => true
  | call_withVariation t1 _, call_withVariation t2 _ => FontVariation.Tag.eqb t1 t2
  | _, _ => false
  end.

(** No two entries of the variations carry the same tag. *)
Definition distinct_tags (vars : list FontVariation) : Prop :=
  NoDup (FontVariation.tag <$> vars).

(** A call that cannot bring in two entries of one tag: any call but a
    [withVariations] whose list has them. *)
Definition brings_distinct_tags (c : Call) : Prop :=
  match c with
  | call_withVariations x => distinct_tags x
  | _ => True
  end.

(** Both heights are set. *)
Definition both_heights_set (o : FontOptions) : bool :=
  is_set (height o) && is_set (pointHeight o).

(** The integers an [int32] holds. *)
Definition is_int32 (v : Z) : Prop := - 2 ^ 31 <= v < 2 ^ 31.

(** ** Values to try the operations on *)

(** The binary32 number 0.9f, that is 15099494 * 2^-24. *)
Definition zero_point_nine : float := S754_finite false 15099494 (-24).

(** Two typefaces to try the mutators on. *)
Definition typeface_A : Typeface := mkTypeface 1 "Arial" "Bold".
Definition typeface_B : Typeface := mkTypeface 2 "Times" "Italic".

(** The tag of the weight axis, 'wght'. *)
Definition wght : FontVariation.Tag.Tag := FontVariation.Tag.of_uint32 2003265652.

(** The binary32 numbers 12 and -2. *)
Definition twelve : float := S754_finite false 12582912 (-20).
Definition minus_two : float := S754_finite true 8388608 (-22).

(** The tag of the width axis, 'wdth'. *)
Definition wdth : FontVariation.Tag.Tag := FontVariation.Tag.of_uint32 2003072104.

(** * Properties *)

(** ** The comparisons of binary32 *)

Section Float32_facts.

Lemma SFcompare_swap (a b : float) :
  SFcompare b a = CompOpp <$> SFcompare a b.
Proof.
  destruct a as [sa|sa| |sa ma ea], b as [sb|sb| |sb mb eb];
    try (destruct sa); try (destruct sb); try reflexivity; cbn;
    change (Pos.compare_cont Eq mb ma) with (Pos.compare mb ma);
    change (Pos.compare_cont Eq ma mb) with (Pos.compare ma mb);
    rewrite (Z.compare_antisym eb ea), (Pos.compare_antisym mb ma);
    destruct (eb ?= ea)%Z; cbn; try reflexivity;
    now destruct (mb ?= ma)%positive.
Qed.

Lemma SFcompare_refl (a : float) :
  is_nan a = false -> SFcompare a a = Some Eq.
Proof.
  destruct a as [s|s| |s m e]; try (destruct s); cbn; try easy;
    intros _; change (Pos.compare_cont Eq m m) with (Pos.compare m m);
    now rewrite Z.compare_refl, Pos.compare_refl.
Qed.

Lemma SFcompare_nan (a b : float) :
  SFcompare a b = None <-> is_nan a = true \/ is_nan b = true.
Proof.
  destruct a as [sa|sa| |sa ma ea], b as [sb|sb| |sb mb eb]; cbn;
    try (destruct sa); try (destruct sb); cbn; intuition congruence.
Qed.

Lemma eqb_refl (a : float) : is_nan a = false -> Float32.eqb a a = true.
Proof. intros H. unfold Float32.eqb, SFeqb. now rewrite SFcompare_refl. Qed.

Lemma gtb_not_nan (x y : float) : gtb x y = true -> is_nan x = false.
Proof.
  unfold gtb, SFltb. destruct x; try reflexivity.
  now destruct y.
Qed.

(** [x >= y] fails exactly when [x < y] or one of the two is a NaN. *)
Lemma geb_false (x y : float) :
  geb x y = false <-> Float32.ltb x y = true \/ is_nan x = true \/ is_nan y = true.
Proof.
  unfold geb, Float32.ltb, SFleb, SFltb.
  rewrite (SFcompare_swap x y).
  destruct (SFcompare x y) as [[| |]|] eqn:E; cbn.
  - split; [easy|]. intros [?|H]; [easy|].
    apply SFcompare_nan in H. congruence.
  - tauto.
  - split; [easy|]. intros [?|H]; [easy|].
    apply SFcompare_nan in H. congruence.
  - apply SFcompare_nan in E. tauto.
Qed.

Lemma geb_as_cases (x : float) :
  geb x zero = negb (Float32.ltb x zero || is_nan x).
Proof.
  destruct (geb x zero) eqn:E.
  - symmetry. apply negb_true_iff. apply orb_false_iff.
    destruct (Float32.ltb x zero) eqn:L, (is_nan x) eqn:N; try easy;
      assert (geb x zero = false) by (apply geb_false; auto); congruence.
  - symmetry. apply negb_false_iff. apply geb_false in E.
    destruct E as [->|[->|?]]; [easy| apply orb_true_r | easy].
Qed.

(** The constants are binary32 numbers. *)
Lemma constants_are_float32 :
  is_float32 zero = true /\ is_float32 one = true
  /\ is_float32 minus_one = true /\ is_float32 zero_point_nine = true
  /\ is_float32 nan = true.
Proof. now vm_compute. Qed.

End Float32_facts.

(** ** Name, style and typeface *)

Lemma assign_member (o : FontOptions) (m : Member) (x : member_type m) :
  member m (assign o m x) = x.
Proof. destruct o, m; reflexivity. Qed.

Lemma assign_other (o : FontOptions) (m m' : Member) (x : member_type m) :
  m' <> m -> member m' (assign o m x) = member m' o.
Proof. destruct o, m, m'; intros H; try reflexivity; now destruct H. Qed.

(** C1, as the claim states it, fails: options that hold the typeface
    "Arial" keep the name "Arial" when the typeface "Times" is set, because
    [withName] and [withStyle] leave options that hold a typeface alone. *)
Lemma withTypeface_keeps_stale_name :
  let o := withTypeface default_members (Some typeface_A) in
  getName (withTypeface o (Some typeface_B)) = "Arial"%string
  /\ getStyle (withTypeface o (Some typeface_B)) = "Bold"%string
  /\ getName (withTypeface o (Some typeface_B)) <> tf_getName typeface_B
  /\ getStyle (withTypeface o (Some typeface_B)) <> tf_getStyle typeface_B.
Proof. cbn. repeat split; discriminate. Qed.

(** C1, amended: for options [o] that hold no typeface and every typeface
    [t], after [o.withTypeface (t)] the accessors [getName] and [getStyle]
    return the name and the style of [t], whatever name and style [o] had,
    and [getTypeface] returns the handle. *)
Theorem withTypeface_sets_name_and_style (o : FontOptions) (t : Typeface) :
  typeface o = None ->
  getName (withTypeface o (Some t)) = tf_getName t
  /\ getStyle (withTypeface o (Some t)) = tf_getStyle t
  /\ getTypeface (withTypeface o (Some t)) = Some t.
Proof.
  intros H. destruct o; cbn in H; subst. repeat split.
Qed.

Lemma withTypeface_sets_name_and_style_witness :
  typeface (withName default_members "Helvetica") = None
  /\ getName (withTypeface (withName default_members "Helvetica") (Some typeface_B))
     = "Times"%string.
Proof.
  split; [reflexivity|].
  apply (withTypeface_sets_name_and_style
           (withName default_members "Helvetica") typeface_B).
  reflexivity.
Defined.

(** C2: when the options hold a typeface, [withName] and [withStyle] return
    the options as they are, equal to the original in every member. *)
Theorem withName_withStyle_ignored (o : FontOptions) (s : string) :
  typeface o <> None ->
  withName o s = o /\ withStyle o s = o.
Proof.
  intros H. unfold withName, withStyle.
  destruct (typeface o); [split; reflexivity | now destruct H].
Qed.

Lemma withName_withStyle_ignored_witness :
  typeface (withTypeface default_members (Some typeface_A)) <> None
  /\ withName (withTypeface default_members (Some typeface_A)) "X"
     = withTypeface default_members (Some typeface_A).
Proof.
  split; [discriminate|].
  apply (withName_withStyle_ignored
           (withTypeface default_members (Some typeface_A)) "X").
  discriminate.
Defined.

(** ** Heights *)

(** C4: for a positive [X], [withHeight (X)] gives [getHeight() == X] and
    [getPointHeight() == -1], and [withPointHeight (X)] gives
    [getPointHeight() == X] and [getHeight() == -1]; the values are the very
    ones, and they compare equal with the [==] of floats. *)
Theorem withHeight_withPointHeight_get (o : FontOptions) (X : float) :
  gtb X zero = true ->
  (getHeight (withHeight o X) = X
   /\ Float32.eqb (getHeight (withHeight o X)) X = true
   /\ getPointHeight (withHeight o X) = minus_one
   /\ Float32.eqb (getPointHeight (withHeight o X)) minus_one = true)
  /\ (getPointHeight (withPointHeight o X) = X
      /\ Float32.eqb (getPointHeight (withPointHeight o X)) X = true
      /\ getHeight (withPointHeight o X) = minus_one
      /\ Float32.eqb (getHeight (withPointHeight o X)) minus_one = true).
Proof.
  intros H. apply gtb_not_nan in H.
  destruct o; cbn. repeat split; now apply eqb_refl.
Qed.

Lemma withHeight_withPointHeight_get_witness :
  gtb one zero = true
  /\ getHeight (withHeight default_members one) = one.
Proof.
  split; [reflexivity|].
  apply (withHeight_withPointHeight_get default_members one).
  reflexivity.
Defined.

(** ** Ascent and descent overrides *)

(** C7, as the claim states it, fails: a stored NaN is not negative, and the
    accessor still returns an absent optional. *)
Lemma getAscentOverride_nan_absent :
  let o := withAscentOverride default_members (Some nan) in
  Float32.ltb (ascentOverride o) zero = false
  /\ getAscentOverride o = None.
Proof. split; reflexivity. Qed.

(** C7, amended: [getAscentOverride] and [getDescentOverride] return an
    absent optional exactly when the stored member is negative or a NaN, and
    the stored value as a present optional otherwise; an override of 0.9 is
    read back as present 0.9. *)
Theorem getOverride_absent_iff (o : FontOptions) :
  getAscentOverride o
  = (if Float32.ltb (ascentOverride o) zero || is_nan (ascentOverride o)
     then None else Some (ascentOverride o))
  /\ getDescentOverride o
     = (if Float32.ltb (descentOverride o) zero || is_nan (descentOverride o)
        then None else Some (descentOverride o))
  /\ getAscentOverride (withAscentOverride o (Some zero_point_nine))
     = Some zero_point_nine
  /\ getDescentOverride (withDescentOverride o (Some zero_point_nine))
     = Some zero_point_nine.
Proof.
  unfold getAscentOverride, getDescentOverride.
  rewrite !geb_as_cases.
  split; [|split; [|split]].
  - now destruct (_ || _).
  - now destruct (_ || _).
  - now destruct o.
  - now destruct o.
Qed.

(** C10: a negative override given as a present value is stored as it is,
    and is read back as an absent optional, as an override that was never
    given is; the same for the descent. *)
Theorem negative_override_reads_absent (o : FontOptions) (v : float) :
  Float32.ltb v zero = true ->
  (ascentOverride (withAscentOverride o (Some v)) = v
   /\ getAscentOverride (withAscentOverride o (Some v)) = None
   /\ getAscentOverride (withAscentOverride o (Some v))
      = getAscentOverride (withAscentOverride o None))
  /\ (descentOverride (withDescentOverride o (Some v)) = v
      /\ getDescentOverride (withDescentOverride o (Some v)) = None
      /\ getDescentOverride (withDescentOverride o (Some v))
         = getDescentOverride (withDescentOverride o None)).
Proof.
  intros H.
  assert (G : geb v zero = false) by (apply geb_false; auto).
  destruct o; unfold getAscentOverride, getDescentOverride; cbn.
  rewrite G. repeat split.
Qed.

Lemma negative_override_reads_absent_witness :
  Float32.ltb minus_one zero = true
  /\ getAscentOverride (withAscentOverride default_members (Some minus_one)) = None.
Proof.
  split; [reflexivity|].
  apply (negative_override_reads_absent default_members minus_one).
  reflexivity.
Defined.

(** ** Variations *)

Section Variations.

Import FontVariation.

Implicit Types (t : Tag.Tag) (v : float) (vars : list FontVariation).

Lemma has_tag_iff t (e : FontVariation) : has_tag t e <-> tag e = t.
Proof.
  unfold has_tag, Tag.eqb. rewrite Z.eqb_eq.
  destruct (tag e) as [x], t as [y]; cbn. split; congruence.
Qed.

Lemma has_tag_Build t v : has_tag t (Build t v).
Proof. now apply has_tag_iff. Qed.

Lemma variations_withVariation (o : FontOptions) t v :
  variations (withVariation o t v)
  = match list_find (has_tag t) (variations o) with
    | Some (i, e) => <[i := Build (tag e) v]> (variations o)
    | None => variations o ++ [Build t v]
    end.
Proof.
  unfold withVariation.
  destruct (list_find (has_tag t) (variations o)) as [[i e]|];
    now destruct o.
Qed.

Lemma find_after_update vars t v (i : nat) (e : FontVariation) :
  list_find (has_tag t) vars = Some (i, e) ->
  list_find (has_tag t) (<[i := Build t v]> vars) = Some (i, Build t v).
Proof.
  intros (Hi & _ & Hleast)%list_find_Some.
  apply list_find_Some. split_and!.
  - apply list_lookup_insert_eq. eauto using lookup_lt_Some.
  - apply has_tag_Build.
  - intros j y Hj Hlt. rewrite list_lookup_insert_ne in Hj by lia. eauto.
Qed.

Lemma find_after_push vars t v :
  list_find (has_tag t) vars = None ->
  list_find (has_tag t) (vars ++ [Build t v]) = Some (length vars, Build t v).
Proof.
  intros Hnone%list_find_None.
  apply list_find_Some. split_and!.
  - rewrite lookup_app_r by lia. now rewrite Nat.sub_diag.
  - apply has_tag_Build.
  - intros j y Hj Hlt. rewrite lookup_app_l in Hj by lia.
    eapply (Forall_lookup_1 _ _ _ _ Hnone Hj).
Qed.

Lemma filter_none vars t :
  list_find (has_tag t) vars = None -> filter (has_tag t) vars = [].
Proof.
  intros Hnone%list_find_None.
  induction Hnone as [|x l Hx _ IH]; [reflexivity|].
  rewrite filter_cons. now destruct (decide (has_tag t x)).
Qed.

Lemma filter_before_first vars t (i : nat) (e : FontVariation) :
  list_find (has_tag t) vars = Some (i, e) ->
  filter (has_tag t) (take i vars) = [].
Proof.
  intros (_ & _ & Hleast)%list_find_Some.
  apply filter_none, list_find_None, Forall_lookup.
  intros j y Hj. apply lookup_take_Some in Hj as [Hj Hlt]. eauto.
Qed.

Lemma filter_split vars t (i : nat) (e : FontVariation) :
  list_find (has_tag t) vars = Some (i, e) ->
  filter (has_tag t) vars = e :: filter (has_tag t) (drop (S i) vars).
Proof.
  intros H. pose proof (filter_before_first _ _ _ _ H) as Hb.
  apply list_find_Some in H as (Hi & He & _).
  rewrite <- (take_drop_middle vars i e Hi) at 1.
  rewrite filter_app, Hb, filter_cons. cbn.
  now destruct (decide (has_tag t e)).
Qed.

Lemma drop_after_update vars (i : nat) (x : FontVariation) :
  drop (S i) (<[i := x]> vars) = drop (S i) vars.
Proof. apply drop_insert_lt. lia. Qed.

(** What one call does to the entries of the tag: afterwards the first of
    them is at [i] and holds the new value, the later ones and every other
    position are as before; [i] is the position of the first entry of the
    tag if there was one, and the old length otherwise. *)
Lemma withVariation_entries (o : FontOptions) t v :
  exists i : nat,
    list_find (has_tag t) (variations (withVariation o t v)) = Some (i, Build t v)
    /\ filter (has_tag t) (variations (withVariation o t v))
       = Build t v :: tail (filter (has_tag t) (variations o))
    /\ (forall j : nat, j <> i ->
          (j < length (variations o))%nat ->
          variations (withVariation o t v) !! j = variations o !! j)
    /\ match position_of t (variations o) with
       | Some k => i = k
                   /\ length (variations (withVariation o t v))
                      = length (variations o)
       | None => variations (withVariation o t v) = variations o ++ [Build t v]
       end.
Proof.
  rewrite variations_withVariation. unfold position_of.
  destruct (list_find (has_tag t) (variations o)) as [[i e]|] eqn:F; cbn.
  - assert (tag e = t) as ->.
    { apply list_find_Some in F as (_ & He & _). now apply has_tag_iff. }
    exists i. split_and!.
    + eapply find_after_update, F.
    + rewrite (filter_split _ _ _ _ (find_after_update _ _ v _ _ F)).
      rewrite drop_after_update.
      now rewrite (filter_split _ _ _ _ F).
    + intros j Hj _. now apply list_lookup_insert_ne.
    + reflexivity.
    + apply length_insert.
  - exists (length (variations o)). split_and!.
    + now apply find_after_push.
    + rewrite filter_app, (filter_none _ _ F), filter_cons. cbn.
      now destruct (decide (has_tag t (Build t v))) as [|[]%(fun H => H (has_tag_Build t v))].
    + intros j _ Hj. now apply lookup_app_l.
    + reflexivity.
Qed.

End Variations.

(** C3, as the claim states it, fails: [withVariations] takes any list, and
    when the options hold two entries of the tag, two calls of
    [withVariation] update the first and leave the second, so that two
    entries of the tag remain. *)
Lemma withVariation_keeps_later_duplicates :
  let o := withVariations default_members
             [FontVariation.Build wght zero; FontVariation.Build wght one] in
  variations (withVariation (withVariation o wght twelve) wght zero_point_nine)
  = [FontVariation.Build wght zero_point_nine; FontVariation.Build wght one]
  /\ count_tag wght
       (variations (withVariation (withVariation o wght twelve) wght zero_point_nine))
     = 2%nat.
Proof. split; reflexivity. Qed.

(** C3, amended: when the options hold at most one entry of the tag [t],
    after [withVariation (t, v1)] and [withVariation (t, v2)] there is
    exactly one entry of the tag, its value is [v2], it is at the position
    it had after the first call, and the second call changes no other
    position; when the options hold no entry of the tag, [withVariation]
    pushes the new entry at the back of the entries there were. *)
Theorem withVariation_upsert (o : FontOptions) (t : FontVariation.Tag.Tag)
    (v1 v2 : float) :
  (count_tag t (variations o) <= 1)%nat ->
  let o1 := withVariation o t v1 in
  let o2 := withVariation o1 t v2 in
  filter (has_tag t) (variations o2) = [FontVariation.Build t v2]
  /\ count_tag t (variations o2) = 1%nat
  /\ (exists i : nat,
        position_of t (variations o1) = Some i
        /\ position_of t (variations o2) = Some i
        /\ variations o2 !! i = Some (FontVariation.Build t v2)
        /\ forall j : nat, j <> i -> variations o2 !! j = variations o1 !! j)
  /\ (count_tag t (variations o) = 0%nat ->
      variations o1 = variations o ++ [FontVariation.Build t v1]).
Proof.
  intros Hcount o1 o2. subst o1 o2.
  destruct (withVariation_entries o t v1) as (i1 & F1 & Fl1 & _ & P1).
  destruct (withVariation_entries (withVariation o t v1) t v2)
    as (i2 & F2 & Fl2 & Oth2 & P2).
  unfold position_of in P2 |- *. rewrite F1 in P2 |- *. cbn in P2.
  destruct P2 as [-> Hlen].
  assert (Hfilter : filter (has_tag t) (variations (withVariation (withVariation o t v1) t v2))
                    = [FontVariation.Build t v2]).
  { rewrite Fl2, Fl1. cbn. unfold count_tag in Hcount.
    destruct (filter (has_tag t) (variations o)) as [|x [|y l]];
      cbn in *; try reflexivity. lia. }
  split_and!.
  - exact Hfilter.
  - unfold count_tag. now rewrite Hfilter.
  - exists i1. rewrite F2. split_and!; try reflexivity.
    + now apply list_find_Some in F2 as (? & _).
    + intros j Hj.
      destruct (decide (j < length (variations (withVariation o t v1)))%nat) as [Hlt|Hge].
      * now apply Oth2.
      * rewrite !lookup_ge_None_2; [reflexivity | lia | lia].
  - intros H0. unfold position_of in P1.
    destruct (list_find (has_tag t) (variations o)) as [[k e]|] eqn:F; cbn in P1.
    + unfold count_tag in H0.
      rewrite (filter_split _ _ _ _ F) in H0. discriminate.
    + exact P1.
Qed.

Lemma withVariation_upsert_witness :
  (count_tag wght (variations default_members) <= 1)%nat
  /\ count_tag wght
       (variations (withVariation (withVariation default_members wght one) wght twelve))
     = 1%nat.
Proof.
  split; [cbn; lia|].
  apply (withVariation_upsert default_members wght one twelve).
  cbn; lia.
Defined.

(** ** What a mutator leaves alone *)

(** Membership among explicitly listed members. *)
Ltac listed :=
  repeat first [apply list_elem_of_here | apply list_elem_of_further].

Ltac refute_listed H :=
  repeat (apply elem_of_cons in H as [H|H]; [discriminate H|]);
  now apply elem_of_nil in H.

Ltac not_listed := let H := fresh in intros H; refute_listed H.

Section Frame.

Lemma unchanged_except_refl (ms : list Member) (o : FontOptions) :
  unchanged_except ms o o.
Proof. now intros m _. Qed.

Lemma unchanged_except_assign (o : FontOptions) (m : Member) (x : member_type m)
    (ms : list Member) :
  m ∈ ms -> unchanged_except ms o (assign o m x).
Proof.
  intros Hin m' Hm'. apply assign_other. intros ->. now apply Hm'.
Qed.

Lemma unchanged_except_trans (ms : list Member) (a b c : FontOptions) :
  unchanged_except ms a b -> unchanged_except ms b c -> unchanged_except ms a c.
Proof. intros H1 H2 m Hm. now rewrite (H2 m Hm), (H1 m Hm). Qed.

(** An assignment to the member [m] leaves the others alone. *)
Ltac written m := apply (unchanged_except_assign _ m); listed.

Lemma unchanged_except_withName (o : FontOptions) (x : string) (ms : list Member) :
  M_name ∈ ms -> unchanged_except ms o (withName o x).
Proof.
  intros H. unfold withName.
  destruct (typeface o);
    [apply unchanged_except_refl | now apply unchanged_except_assign].
Qed.

Lemma unchanged_except_withStyle (o : FontOptions) (x : string) (ms : list Member) :
  M_style ∈ ms -> unchanged_except ms o (withStyle o x).
Proof.
  intros H. unfold withStyle.
  destruct (typeface o);
    [apply unchanged_except_refl | now apply unchanged_except_assign].
Qed.

Lemma unchanged_except_call (o : FontOptions) (c : Call) :
  unchanged_except (targets c) o (call o c).
Proof.
  destruct c as [x|x|[tf|]|x|x|x|x|x|x|x|x|x|x|x|t v]; cbn [call targets].
  - apply unchanged_except_withName. listed.
  - apply unchanged_except_withStyle. listed.
  - unfold withTypeface, withMember.
    eapply unchanged_except_trans; [eapply unchanged_except_trans|].
    + apply (unchanged_except_withName o (tf_getName tf)). listed.
    + apply unchanged_except_withStyle. listed.
    + written M_typeface.
  - written M_typeface.
  - written M_fallbacks.
  - written M_fallbackEnabled.
  - unfold withHeight. eapply unchanged_except_trans;
      [written M_height | written M_pointHeight].
  - unfold withPointHeight. eapply unchanged_except_trans;
      [written M_pointHeight | written M_height].
  - written M_tracking.
  - written M_horizontalScale.
  - written M_underlined.
  - written M_metricsKind.
  - written M_ascentOverride.
  - written M_descentOverride.
  - written M_variations.
  - unfold withVariation.
    destruct (list_find (has_tag t) (variations o)) as [[i e]|];
      written M_variations.
Qed.

End Frame.

(** C6: every mutator returns a copy that differs from the original at most
    in the members it is documented to write, which are its own member,
    both heights for [withHeight] and [withPointHeight], and name, style and
    typeface for [withTypeface] with a handle that is not null; and on valid
    input (no typeface held, for [withName] and [withStyle]) its own member
    holds the new value. *)
Theorem mutators_change_only_their_members (o : FontOptions) :
  (forall c : Call, unchanged_except (targets c) o (call o c))
  /\ (forall x, typeface o = None -> getName (withName o x) = x)
  /\ (forall x, typeface o = None -> getStyle (withStyle o x) = x)
  /\ (forall x, getTypeface (withTypeface o x) = x)
  /\ (forall x, getFallbacks (withFallbacks o x) = x)
  /\ (forall x, getFallbackEnabled (withFallbackEnabled o x) = x)
  /\ (forall x, getHeight (withHeight o x) = x
                /\ getPointHeight (withHeight o x) = minus_one)
  /\ (forall x, getPointHeight (withPointHeight o x) = x
                /\ getHeight (withPointHeight o x) = minus_one)
  /\ (forall x, getKerningFactor (withKerningFactor o x) = x)
  /\ (forall x, getHorizontalScale (withHorizontalScale o x) = x)
  /\ (forall x, getUnderline (withUnderline o x) = x)
  /\ (forall x, getMetricsKind (withMetricsKind o x) = x)
  /\ (forall x, ascentOverride (withAscentOverride o x) = value_or x minus_one)
  /\ (forall x, descentOverride (withDescentOverride o x) = value_or x minus_one)
  /\ (forall x, getVariations (withVariations o x) = x).
Proof.
  split; [apply unchanged_except_call|].
  split_and!; intros x; try (now destruct o).
  - intros H. destruct o; cbn in *; now subst.
  - intros H. destruct o; cbn in *; now subst.
  - unfold withTypeface, withMember, getTypeface.
    apply (assign_member _ M_typeface).
Qed.

Lemma mutators_change_only_their_members_witness :
  typeface default_members = None
  /\ getName (withName default_members "Helvetica") = "Helvetica"%string
  /\ member M_style (call default_members (call_withName "Helvetica"))
     = member M_style default_members.
Proof.
  pose proof (mutators_change_only_their_members default_members)
    as (Hframe & Hname & _).
  split_and!.
  - reflexivity.
  - apply Hname. reflexivity.
  - apply (Hframe (call_withName "Helvetica")). cbn. not_listed.
Defined.

(** ** Exactly one height is set *)

Section Heights.

Lemma is_set_positive (x : float) : gtb x zero = true -> is_set x = true.
Proof.
  unfold gtb, is_set, geb, SFltb, SFleb.
  now destruct (SFcompare zero x) as [[| |]|].
Qed.

Lemma heights_of_call (o : FontOptions) (c : Call) :
  M_height ∉ targets c ->
  height (call o c) = height o /\ pointHeight (call o c) = pointHeight o.
Proof.
  intros H. split.
  - apply (unchanged_except_call o c M_height H).
  - apply (unchanged_except_call o c M_pointHeight).
    destruct c as [x|x|[tf|]|x|x|x|x|x|x|x|x|x|x|x|t v]; cbn in *;
      first [not_listed | exfalso; apply H; listed].
Qed.

Lemma exactly_one_height_set_call (o : FontOptions) (c : Call) :
  exactly_one_height_set o = true ->
  height_asserted c = true ->
  exactly_one_height_set (call o c) = true.
Proof.
  intros Ho Hc. unfold exactly_one_height_set.
  destruct (decide (M_height ∈ targets c)) as [Hin|Hout].
  - destruct c as [x|x|[tf|]|x|x|x|x|x|x|x|x|x|x|x|t v];
      cbn in Hin; try (exfalso; refute_listed Hin);
      cbn in Hc |- *; destruct o; cbn;
      now rewrite (is_set_positive x Hc).
  - destruct (heights_of_call o c Hout) as [-> ->]. exact Ho.
Qed.

(** Whatever the options were, a negative height leaves neither height
    set. *)
Lemma withHeight_negative (o : FontOptions) (x : float) :
  Float32.ltb x zero = true ->
  is_set (height (withHeight o x)) = false
  /\ is_set (pointHeight (withHeight o x)) = false.
Proof.
  intros H. destruct o; cbn. split; [|reflexivity].
  apply geb_false. auto.
Qed.

End Heights.

(** C5, as the claim states it, fails: the setters take any float, and from
    options with the pixel height 12 set, [withHeight (-2)] gives options
    with neither height set. *)
Lemma negative_height_unsets_both :
  let o := withHeight default_members twelve in
  exactly_one_height_set o = true
  /\ exactly_one_height_set (chain o [call_withHeight minus_two]) = false
  /\ is_set (getHeight (chain o [call_withHeight minus_two])) = false
  /\ is_set (getPointHeight (chain o [call_withHeight minus_two])) = false.
Proof. repeat split. Qed.

(** C5, amended: starting from options in which exactly one of the two
    heights is set, every chain of mutator calls in which the arguments of
    [withHeight] and [withPointHeight] are positive, as these two assert,
    gives options in which exactly one of the two heights is set. *)
Theorem exactly_one_height_set_chain (o : FontOptions) (cs : list Call) :
  exactly_one_height_set o = true ->
  forallb height_asserted cs = true ->
  exactly_one_height_set (chain o cs) = true.
Proof.
  revert o. induction cs as [|c cs IH]; intros o Ho Hcs; [exact Ho|].
  cbn in Hcs. apply andb_true_iff in Hcs as [Hc Hcs].
  cbn. apply IH; [|exact Hcs].
  now apply exactly_one_height_set_call.
Qed.

Lemma exactly_one_height_set_chain_witness :
  exactly_one_height_set (withHeight default_members twelve) = true
  /\ forallb height_asserted
       [call_withPointHeight one; call_withName "Helvetica"; call_withHeight twelve]
     = true
  /\ exactly_one_height_set
       (chain (withHeight default_members twelve)
          [call_withPointHeight one; call_withName "Helvetica"; call_withHeight twelve])
     = true.
Proof.
  split_and!; [reflexivity | reflexivity |].
  apply (exactly_one_height_set_chain (withHeight default_members twelve)
           [call_withPointHeight one; call_withName "Helvetica"; call_withHeight twelve]);
    reflexivity.
Defined.

(** ** Tags and axis settings compare as integers and as pairs *)

Lemma make_int32_range (variationTag : Z) (variationValue : float) :
  0 <= FontVariation.Tag.tag (FontVariation.tag
         (FontVariation.make_int32 variationTag variationValue)) < 2 ^ 32.
Proof. cbn. apply Z.mod_pos_bound. lia. Qed.

(** C9: the operators [==], [!=] and [<] of a tag are the comparisons of the
    integers the tags hold, and the operators [==], [!=] and [<] of an axis
    setting are the equality and the lexicographic order of the pairs
    (tag, value). *)
Theorem tag_and_setting_comparisons (a b : FontVariation.Tag.Tag) (p q : FontVariation) :
  (FontVariation.Tag.eqb a b = true <-> raw_eq a b)
  /\ (FontVariation.Tag.neb a b = true <-> ~ raw_eq a b)
  /\ (FontVariation.Tag.ltb a b = true <-> raw_lt a b)
  /\ (FontVariation.eqb p q = true <-> pair_eq p q)
  /\ (FontVariation.neb p q = true <-> ~ pair_eq p q)
  /\ (FontVariation.ltb p q = true <-> pair_lex_lt p q).
Proof.
  unfold FontVariation.neb, FontVariation.eqb, FontVariation.ltb,
    FontVariation.tie_lt, FontVariation.Tag.eqb, FontVariation.Tag.neb,
    FontVariation.Tag.ltb, pair_eq, pair_lex_lt, raw_eq, raw_lt.
  split_and!.
  - apply Z.eqb_eq.
  - rewrite negb_true_iff. apply Z.eqb_neq.
  - apply Z.ltb_lt.
  - rewrite andb_true_iff, Z.eqb_eq. reflexivity.
  - rewrite negb_true_iff, andb_false_iff, Z.eqb_neq.
    destruct (Float32.eqb _ _); split.
    + intros [H|H]; [tauto | discriminate].
    + intros H. left. intros E. apply H. now split.
    + intros _ [_ H]. discriminate.
    + intros _. now right.
  - destruct (Z.ltb_spec (FontVariation.Tag.tag (FontVariation.tag p))
                (FontVariation.Tag.tag (FontVariation.tag q))) as [Hlt|Hge].
    + split; [now left | reflexivity].
    + destruct (Z.ltb_spec (FontVariation.Tag.tag (FontVariation.tag q))
                  (FontVariation.Tag.tag (FontVariation.tag p))) as [Hgt|Hle].
      * split; [discriminate | intros [?|[? _]]; lia].
      * split; [intros H; right; split; [lia | exact H]
               | intros [?|[_ H]]; [lia | exact H]].
Qed.

(** ** Equality and order of the options *)

Section Laws.

Lemma string_compare_refl (s : string) : String.compare s s = Eq.
Proof.
  pose proof (String.compare_antisym s s) as H.
  destruct (String.compare s s); cbn in H; congruence.
Qed.

Lemma string_less_total (a b : string) :
  String.ltb a b = true \/ String.eqb a b = true \/ String.ltb b a = true.
Proof.
  unfold String.ltb. rewrite (String.compare_antisym b a).
  destruct (String.compare a b) eqn:E; cbn; auto.
  right; left. apply String.compare_eq_iff in E. subst. apply String.eqb_refl.
Qed.

Lemma string_equal_not_less (a b : string) :
  String.eqb a b = true -> String.ltb a b = false /\ String.ltb b a = false.
Proof.
  intros H. apply String.eqb_eq in H. subst.
  unfold String.ltb. now rewrite string_compare_refl.
Qed.

Lemma string_less_asym (a b : string) :
  String.ltb a b = true -> String.ltb b a = false.
Proof.
  unfold String.ltb. rewrite (String.compare_antisym b a).
  now destruct (String.compare a b).
Qed.

#[global] Instance string_Lawful : Lawful string := {|
  ordered := fun _ => True;
  equal_refl := fun a _ => String.eqb_refl a;
  less_total := fun a b _ _ => string_less_total a b;
  equal_not_less := string_equal_not_less;
  less_asym := string_less_asym
|}.

Lemma float_less_total (a b : float) :
  is_nan a = false -> is_nan b = false ->
  Float32.ltb a b = true \/ Float32.eqb a b = true \/ Float32.ltb b a = true.
Proof.
  intros Ha Hb. unfold Float32.ltb, Float32.eqb, SFltb, SFeqb.
  rewrite (SFcompare_swap a b).
  destruct (SFcompare a b) as [[| |]|] eqn:E; cbn; auto.
  apply SFcompare_nan in E. destruct E; congruence.
Qed.

Lemma float_equal_not_less (a b : float) :
  Float32.eqb a b = true -> Float32.ltb a b = false /\ Float32.ltb b a = false.
Proof.
  unfold Float32.ltb, Float32.eqb, SFltb, SFeqb.
  rewrite (SFcompare_swap a b).
  now destruct (SFcompare a b) as [[| |]|].
Qed.

Lemma float_less_asym (a b : float) :
  Float32.ltb a b = true -> Float32.ltb b a = false.
Proof.
  unfold Float32.ltb, SFltb. rewrite (SFcompare_swap a b).
  now destruct (SFcompare a b) as [[| |]|].
Qed.

#[global] Instance float_Lawful : Lawful float := {|
  ordered := fun a => is_nan a = false;
  equal_refl := eqb_refl;
  less_total := float_less_total;
  equal_not_less := float_equal_not_less;
  less_asym := float_less_asym
|}.

Lemma Z_less_total (x y : Z) :
  Z.ltb x y = true \/ Z.eqb x y = true \/ Z.ltb y x = true.
Proof.
  destruct (Z.lt_trichotomy x y) as [H|[H|H]].
  - left. now apply Z.ltb_lt.
  - right; left. now apply Z.eqb_eq.
  - right; right. now apply Z.ltb_lt.
Qed.

Lemma Z_equal_not_less (x y : Z) :
  Z.eqb x y = true -> Z.ltb x y = false /\ Z.ltb y x = false.
Proof. intros H%Z.eqb_eq. subst. now rewrite Z.ltb_irrefl. Qed.

Lemma Z_less_asym (x y : Z) : Z.ltb x y = true -> Z.ltb y x = false.
Proof. intros H%Z.ltb_lt. apply Z.ltb_ge. lia. Qed.

#[global] Instance bool_Lawful : Lawful bool.
Proof.
  refine {| ordered := fun _ => True |}.
  - now intros [].
  - intros [] [] _ _; cbn; auto.
  - now intros [] [].
  - now intros [] [].
Defined.

#[global] Instance metricsKind_Lawful : Lawful TypefaceMetricsKind := {|
  ordered := fun _ => True;
  equal_refl := fun a _ => Z.eqb_refl (metricsKind_value a);
  less_total := fun a b _ _ =>
    Z_less_total (metricsKind_value a) (metricsKind_value b);
  equal_not_less := fun a b =>
    Z_equal_not_less (metricsKind_value a) (metricsKind_value b);
  less_asym := fun a b => Z_less_asym (metricsKind_value a) (metricsKind_value b)
|}.

#[global] Instance handle_Lawful : Lawful Typeface_Ptr := {|
  ordered := fun _ => True;
  equal_refl := fun a _ => Z.eqb_refl (handle_address a);
  less_total := fun a b _ _ =>
    Z_less_total (handle_address a) (handle_address b);
  equal_not_less := fun a b =>
    Z_equal_not_less (handle_address a) (handle_address b);
  less_asym := fun a b => Z_less_asym (handle_address a) (handle_address b)
|}.

End Laws.

#[global] Instance Z_Lawful : Lawful Z := {|
  ordered := fun _ => True;
  equal_refl := fun a _ => Z.eqb_refl a;
  less_total := fun a b _ _ => Z_less_total a b;
  equal_not_less := Z_equal_not_less;
  less_asym := Z_less_asym
|}.

Section Tuple_laws.

Context {A B : Type} `{Lawful A} `{Lawful B}.

Lemma tuple_equal_refl (a : A * B) :
  ordered (fst a) /\ ordered (snd a) -> equal a a = true.
Proof.
  intros [Ha Hb]. cbn. now rewrite (equal_refl _ Ha), (equal_refl _ Hb).
Qed.

Lemma tuple_less_total (a b : A * B) :
  ordered (fst a) /\ ordered (snd a) -> ordered (fst b) /\ ordered (snd b) ->
  less a b = true \/ equal a b = true \/ less b a = true.
Proof.
  intros [Ha1 Ha2] [Hb1 Hb2]. cbn.
  destruct (less_total (fst a) (fst b) Ha1 Hb1) as [L|[E|G]].
  - left. now rewrite L.
  - destruct (equal_not_less _ _ E) as [-> ->]. rewrite E. cbn.
    apply less_total; assumption.
  - right; right. now rewrite G.
Qed.

Lemma tuple_equal_not_less (a b : A * B) :
  equal a b = true -> less a b = false /\ less b a = false.
Proof.
  cbn. intros [E1 E2]%andb_true_iff.
  destruct (equal_not_less _ _ E1) as [-> ->].
  now apply equal_not_less.
Qed.

Lemma tuple_less_asym (a b : A * B) : less a b = true -> less b a = false.
Proof.
  cbn. destruct (less (fst a) (fst b)) eqn:L.
  - intros _. now rewrite (less_asym _ _ L).
  - destruct (less (fst b) (fst a)); [discriminate|]. apply less_asym.
Qed.

#[global] Instance tuple_Lawful : Lawful (A * B) := {|
  ordered := fun a => ordered (fst a) /\ ordered (snd a);
  equal_refl := tuple_equal_refl;
  less_total := tuple_less_total;
  equal_not_less := tuple_equal_not_less;
  less_asym := tuple_less_asym
|}.

End Tuple_laws.

Section Vector_laws.

Context {A : Type} `{Lawful A}.

Lemma vector_equal_refl (a : list A) :
  Forall ordered a -> vector_equal a a = true.
Proof.
  induction 1 as [|x a Hx _ IH]; [reflexivity|].
  cbn. now rewrite (equal_refl _ Hx), IH.
Qed.

Lemma vector_less_total (a b : list A) :
  Forall ordered a -> Forall ordered b ->
  vector_less a b = true \/ vector_equal a b = true \/ vector_less b a = true.
Proof.
  intros Ha. revert b.
  induction Ha as [|x a Hx _ IH]; intros b Hb; destruct Hb as [|y b Hy Hb];
    cbn; auto.
  destruct (less_total x y Hx Hy) as [L|[E|G]].
  - left. now rewrite L.
  - destruct (equal_not_less _ _ E) as [-> ->]. rewrite E. cbn.
    now apply IH.
  - right; right. now rewrite G.
Qed.

Lemma vector_equal_not_less (a b : list A) :
  vector_equal a b = true -> vector_less a b = false /\ vector_less b a = false.
Proof.
  revert b. induction a as [|x a IH]; intros [|y b]; cbn; try easy.
  intros [E1 E2]%andb_true_iff.
  destruct (equal_not_less _ _ E1) as [-> ->].
  now apply IH.
Qed.

Lemma vector_less_asym (a b : list A) :
  vector_less a b = true -> vector_less b a = false.
Proof.
  revert b. induction a as [|x a IH]; intros [|y b]; cbn; try easy.
  destruct (less x y) eqn:L.
  - intros _. now rewrite (less_asym _ _ L).
  - destruct (less y x); [discriminate|]. apply IH.
Qed.

#[global] Instance vector_Lawful : Lawful (list A) := {|
  ordered := Forall ordered;
  equal_refl := vector_equal_refl;
  less_total := vector_less_total;
  equal_not_less := vector_equal_not_less;
  less_asym := vector_less_asym
|}.

End Vector_laws.

Section FontVariation_laws.

Import FontVariation.

Lemma FontVariation_eqb_as_pair (p q : FontVariation) :
  FontVariation.eqb p q = equal (as_pair p) (as_pair q).
Proof. reflexivity. Qed.

Lemma FontVariation_ltb_as_pair (p q : FontVariation) :
  FontVariation.ltb p q = less (as_pair p) (as_pair q).
Proof. reflexivity. Qed.

#[global] Instance FontVariation_Lawful : Lawful FontVariation := {|
  ordered := fun p => is_nan (value p) = false;
  equal_refl := fun p Hp => equal_refl (as_pair p) (conj I Hp);
  less_total := fun p q Hp Hq =>
    less_total (as_pair p) (as_pair q) (conj I Hp) (conj I Hq);
  equal_not_less := fun p q => equal_not_less (as_pair p) (as_pair q);
  less_asym := fun p q => less_asym (as_pair p) (as_pair q)
|}.

End FontVariation_laws.

Section Trichotomy.

Context {A : Type} `{Lawful A}.

(** Of [a < b], [a == b] and [b < a] exactly one holds. *)
Lemma exactly_one_of_less_equal (a b : A) :
  ordered a -> ordered b ->
  exactly_one_of (less a b) (equal a b) (less b a).
Proof.
  intros Ha Hb. unfold exactly_one_of.
  destruct (less_total a b Ha Hb) as [L|[E|G]].
  - left. rewrite L, (less_asym _ _ L). split_and!; try reflexivity.
    destruct (equal a b) eqn:E; [|reflexivity].
    destruct (equal_not_less _ _ E); congruence.
  - right; left. destruct (equal_not_less _ _ E) as [-> ->]. now rewrite E.
  - right; right. rewrite G, (less_asym _ _ G). split_and!; try reflexivity.
    destruct (equal a b) eqn:E; [|reflexivity].
    destruct (equal_not_less _ _ E); congruence.
Qed.

End Trichotomy.

Section FontOptions_order.

Lemma nan_free_ordered (o : FontOptions) : nan_free o = true -> ordered (tie o).
Proof.
  unfold nan_free. rewrite !andb_true_iff, !negb_true_iff.
  intros [[[[[[H1 H2] H3] H4] H5] H6] H7].
  cbn. split_and!; try exact I; try assumption.
  - apply Forall_forall. intros s _. exact I.
  - apply Forall_forall. intros p Hp.
    rewrite forallb_forall in H7. apply negb_true_iff. apply H7.
    now apply list_elem_of_In.
Qed.

(** The tuple determines the options. *)
Lemma tie_injective (a b : FontOptions) : tie a = tie b -> a = b.
Proof. destruct a, b. cbn. intros [= -> -> -> -> -> -> -> -> -> -> -> -> -> ->]. reflexivity. Qed.

End FontOptions_order.

(** C8, as the claim states it, fails for the comparison of the tuples of
    all members: options with a NaN kerning factor are not equal to
    themselves, and neither less nor greater than themselves. *)
Lemma nan_options_not_equal_to_themselves :
  let o := withKerningFactor default_members nan in
  FontOptions_eq o o = false
  /\ FontOptions_lt o o = false
  /\ FontOptions_gt o o = false.
Proof. repeat split. Qed.

(** C8, amended: on options none of whose floats is a NaN, the equality
    and the order taken over the tuple of all members in the order of
    their declaration are such that every value is equal to itself, two
    values with the same tuple are equal, however they were built, and of
    [a < b], [a == b], [a > b] exactly one holds. *)
Theorem FontOptions_equality_and_order (a b : FontOptions) :
  nan_free a = true -> nan_free b = true ->
  FontOptions_eq a a = true
  /\ (tie a = tie b -> FontOptions_eq a b = true)
  /\ exactly_one_of (FontOptions_lt a b) (FontOptions_eq a b) (FontOptions_gt a b).
Proof.
  intros Ha%nan_free_ordered Hb%nan_free_ordered.
  unfold FontOptions_eq, FontOptions_lt, FontOptions_gt. split_and!.
  - now apply equal_refl.
  - intros ->. now apply equal_refl.
  - now apply exactly_one_of_less_equal.
Qed.

Lemma FontOptions_equality_and_order_witness :
  let a := chain default_members [call_withHeight twelve; call_withUnderline true] in
  let b := chain default_members [call_withUnderline true; call_withHeight twelve] in
  nan_free a = true /\ nan_free b = true /\ FontOptions_eq a b = true.
Proof.
  intros a b. split_and!; [reflexivity | reflexivity |].
  apply (FontOptions_equality_and_order a b); reflexivity.
Defined.

(** * Further properties of the mutators *)

(** ** Variations: size, lookup, distinct tags *)

Section More_variations.

Import FontVariation.

Implicit Types (t : Tag.Tag) (v : float) (vars : list FontVariation).

Lemma found_has_tag vars t (i : nat) (e : FontVariation) :
  list_find (has_tag t) vars = Some (i, e) -> tag e = t.
Proof. intros (_ & He & _)%list_find_Some. now apply has_tag_iff. Qed.

Lemma count_tag_zero_iff vars t :
  count_tag t vars = 0%nat <-> list_find (has_tag t) vars = None.
Proof.
  unfold count_tag. split.
  - intros H0. destruct (list_find (has_tag t) vars) as [[i e]|] eqn:F;
      [|reflexivity].
    rewrite (filter_split _ _ _ _ F) in H0. discriminate.
  - intros F. now rewrite (filter_none _ _ F).
Qed.

Lemma withVariation_as_assign (o : FontOptions) t v :
  withVariation o t v = assign o M_variations (variations (withVariation o t v)).
Proof.
  unfold withVariation.
  destruct (list_find (has_tag t) (variations o)) as [[i e]|]; now destruct o.
Qed.

Lemma assign_assign (o : FontOptions) (m : Member) (x y : member_type m) :
  assign (assign o m x) m y = assign o m y.
Proof. destruct o, m; reflexivity. Qed.

Lemma variations_withVariation_twice (o : FontOptions) t v1 v2 :
  variations (withVariation (withVariation o t v1) t v2)
  = variations (withVariation o t v2).
Proof.
  rewrite (variations_withVariation (withVariation o t v1)).
  rewrite !(variations_withVariation o).
  destruct (list_find (has_tag t) (variations o)) as [[i e]|] eqn:F.
  - rewrite (found_has_tag _ _ _ _ F).
    rewrite (find_after_update _ _ v1 _ _ F). cbn.
    apply list_insert_insert_eq.
  - rewrite (find_after_push _ _ v1 F). cbn.
    replace (length (variations o)) with (length (variations o) + 0)%nat by lia.
    now rewrite insert_app_r.
Qed.

Lemma withVariation_twice (o : FontOptions) t v1 v2 :
  withVariation (withVariation o t v1) t v2 = withVariation o t v2.
Proof.
  rewrite (withVariation_as_assign (withVariation o t v1)).
  rewrite variations_withVariation_twice.
  rewrite (withVariation_as_assign o t v1), assign_assign.
  symmetry. apply withVariation_as_assign.
Qed.

Lemma filter_other_tag_update vars t t' v (i : nat) (e : FontVariation) :
  t' <> t -> vars !! i = Some e -> tag e = t ->
  filter (has_tag t') (<[i := Build t v]> vars) = filter (has_tag t') vars.
Proof.
  intros Hne Hi He.
  rewrite insert_take_drop by eauto using lookup_lt_Some.
  rewrite <- (take_drop_middle vars i e Hi) at 3.
  rewrite !filter_app, !filter_cons.
  destruct (decide (has_tag t' (Build t v))) as [H1%has_tag_iff|_];
    [cbn in H1; congruence|].
  destruct (decide (has_tag t' e)) as [H2%has_tag_iff|_]; [congruence|].
  reflexivity.
Qed.

Lemma filter_other_tag (o : FontOptions) t t' v :
  t' <> t ->
  filter (has_tag t') (variations (withVariation o t v))
  = filter (has_tag t') (variations o).
Proof.
  intros Hne. rewrite variations_withVariation.
  destruct (list_find (has_tag t) (variations o)) as [[i e]|] eqn:F.
  - rewrite (found_has_tag _ _ _ _ F).
    apply list_find_Some in F as (Hi & He%has_tag_iff & _).
    now apply filter_other_tag_update with e.
  - rewrite filter_app, filter_cons.
    destruct (decide (has_tag t' (Build t v))) as [H1%has_tag_iff|_];
      [cbn in H1; congruence|].
    apply app_nil_r.
Qed.

Lemma distinct_tags_count vars t :
  distinct_tags vars -> (count_tag t vars <= 1)%nat.
Proof.
  unfold distinct_tags, count_tag.
  induction vars as [|x vars IH]; [cbn; lia|].
  rewrite fmap_cons. intros [Hx Hnd]%NoDup_cons. rewrite filter_cons.
  destruct (decide (has_tag t x)) as [Ht%has_tag_iff|_]; [|now apply IH].
  cbn. enough (filter (has_tag t) vars = []) as -> by (cbn; lia).
  apply filter_none, list_find_None, Forall_forall.
  intros y Hy Hty%has_tag_iff. apply Hx. rewrite Ht, <- Hty.
  now apply list_elem_of_fmap_2.
Qed.

Lemma distinct_tags_withVariation (o : FontOptions) t v :
  distinct_tags (variations o) -> distinct_tags (variations (withVariation o t v)).
Proof.
  unfold distinct_tags. intros Hnd. rewrite variations_withVariation.
  destruct (list_find (has_tag t) (variations o)) as [[i e]|] eqn:F.
  - apply list_find_Some in F as (Hi & _ & _).
    rewrite list_fmap_insert. cbn.
    rewrite list_insert_id; [exact Hnd|].
    now rewrite list_lookup_fmap, Hi.
  - rewrite fmap_app. cbn. apply NoDup_app. split_and!.
    + exact Hnd.
    + intros t0 Hin Hin'. apply list_elem_of_singleton in Hin'. subst t0.
      apply list_elem_of_fmap in Hin as (y & Hy & Hin).
      apply list_find_None in F.
      apply (proj1 (Forall_forall _ _) F y Hin). now apply has_tag_iff.
    + apply NoDup_singleton.
Qed.

Lemma distinct_tags_call (o : FontOptions) (c : Call) :
  distinct_tags (variations o) -> brings_distinct_tags c ->
  distinct_tags (variations (call o c)).
Proof.
  intros Ho Hc.
  destruct (decide (M_variations ∈ targets c)) as [Hin|Hout].
  - destruct c as [x|x|[tf|]|x|x|x|x|x|x|x|x|x|x|x|t v];
      cbn in Hin; try (exfalso; refute_listed Hin).
    + cbn in Hc |- *. now destruct o.
    + now apply distinct_tags_withVariation.
  - replace (variations (call o c)) with (variations o); [exact Ho|].
    symmetry. exact (unchanged_except_call o c M_variations Hout).
Qed.

End More_variations.

(** X1: [withVariation] never removes an entry: the list keeps its length
    when it holds an entry of the tag, and grows by the one new entry
    when it holds none; the number of entries of the tag stays what it
    was, but for none becoming one. *)
Theorem withVariation_length (o : FontOptions) (t : FontVariation.Tag.Tag) (v : float) :
  length (variations (withVariation o t v))
  = (length (variations o)
     + (if decide (count_tag t (variations o) = 0%nat) then 1 else 0))%nat
  /\ count_tag t (variations (withVariation o t v))
     = Nat.max 1 (count_tag t (variations o)).
Proof.
  split.
  - rewrite variations_withVariation.
    destruct (decide (count_tag t (variations o) = 0%nat)) as [H0|Hpos].
    + apply count_tag_zero_iff in H0. rewrite H0, length_app. reflexivity.
    + destruct (list_find (has_tag t) (variations o)) as [[i e]|] eqn:F.
      * rewrite length_insert. lia.
      * destruct Hpos. now apply count_tag_zero_iff.
  - destruct (withVariation_entries o t v) as (i & _ & Hf & _).
    unfold count_tag. rewrite Hf.
    destruct (filter (has_tag t) (variations o)); cbn; lia.
Qed.

(** X2: after [withVariation (t, v)] the first entry of the tag [t] holds
    [v], and the entries of every other tag are the ones there were, in
    their order. *)
Theorem withVariation_lookup (o : FontOptions) (t t' : FontVariation.Tag.Tag)
    (v : float) :
  t' <> t ->
  snd <$> list_find (has_tag t) (variations (withVariation o t v))
  = Some (FontVariation.Build t v)
  /\ filter (has_tag t') (variations (withVariation o t v))
     = filter (has_tag t') (variations o).
Proof.
  intros Hne. split.
  - destruct (withVariation_entries o t v) as (i & F & _). now rewrite F.
  - now apply filter_other_tag.
Qed.

Lemma withVariation_lookup_witness :
  wdth <> wght
  /\ filter (has_tag wdth)
       (variations (withVariation
                      (withVariations default_members [FontVariation.Build wdth zero])
                      wght one))
     = [FontVariation.Build wdth zero].
Proof.
  split; [discriminate|].
  apply (withVariation_lookup
           (withVariations default_members [FontVariation.Build wdth zero])
           wght wdth one).
  discriminate.
Defined.

(** X3: a second [withVariation] for the same tag replaces the first: the
    result is the one of the second call alone, whatever the variations
    were; in particular a repeated call changes nothing. *)
Theorem withVariation_last_value_wins (o : FontOptions) (t : FontVariation.Tag.Tag)
    (v1 v2 : float) :
  withVariation (withVariation o t v1) t v2 = withVariation o t v2.
Proof. apply withVariation_twice. Qed.

(** X4: when no two entries of the variations carry the same tag, the same
    holds after every chain of calls in which each [withVariations] brings
    a list without two entries of one tag; every tag then has at most one
    entry. *)
Theorem distinct_tags_chain (o : FontOptions) (cs : list Call) :
  distinct_tags (variations o) ->
  Forall brings_distinct_tags cs ->
  distinct_tags (variations (chain o cs))
  /\ forall t, (count_tag t (variations (chain o cs)) <= 1)%nat.
Proof.
  intros Ho Hcs.
  enough (distinct_tags (variations (chain o cs))) as H
    by (split; [exact H | intros t; now apply distinct_tags_count]).
  revert o Ho. induction Hcs as [|c cs Hc _ IH]; intros o Ho; [exact Ho|].
  cbn. apply IH. now apply distinct_tags_call.
Qed.

Lemma distinct_tags_chain_witness :
  distinct_tags (variations default_members)
  /\ Forall brings_distinct_tags
       [call_withVariation wght one;
        call_withVariations [FontVariation.Build wdth zero];
        call_withVariation wght twelve]
  /\ (count_tag wght
        (variations (chain default_members
           [call_withVariation wght one;
            call_withVariations [FontVariation.Build wdth zero];
            call_withVariation wght twelve])) <= 1)%nat.
Proof.
  assert (H0 : distinct_tags (variations default_members)) by apply NoDup_nil_2.
  assert (H1 : Forall brings_distinct_tags
                 [call_withVariation wght one;
                  call_withVariations [FontVariation.Build wdth zero];
                  call_withVariation wght twelve]).
  { constructor; [exact I|]. constructor; [apply (NoDup_singleton wdth)|].
    constructor; [exact I|]. constructor. }
  split_and!; [exact H0 | exact H1 |].
  apply (distinct_tags_chain default_members _ H0 H1).
Defined.

(** ** How calls combine *)

Section More_calls.

(** Both sides of an equation between two results of calls, computed on
    the members of the options. *)
Ltac compute_calls o :=
  destruct o as [n s tf f k h p tr hs ao do fe u vs];
  destruct tf as [tf0|]; cbn;
  unfold withVariation; cbn;
  try (destruct (list_find _ vs) as [[? ?]|]; cbn);
  reflexivity.

Lemma independent_calls (o : FontOptions) (c1 c2 : Call) :
  independent c1 c2 = true ->
  call (call o c1) c2 = call (call o c2) c1.
Proof.
  intros H.
  destruct c1 as [x1|x1|[t1|]|x1|x1|x1|x1|x1|x1|x1|x1|x1|x1|x1|t1 v1];
    destruct c2 as [x2|x2|[t2|]|x2|x2|x2|x2|x2|x2|x2|x2|x2|x2|x2|t2 v2];
    try (vm_compute in H; discriminate H); clear H; compute_calls o.
Qed.

Lemma overriding_call (o : FontOptions) (c1 c2 : Call) :
  overrides c2 c1 = true ->
  call (call o c1) c2 = call o c2.
Proof.
  intros H.
  destruct c1 as [x1|x1|[t1|]|x1|x1|x1|x1|x1|x1|x1|x1|x1|x1|x1|t1 v1];
    destruct c2 as [x2|x2|[t2|]|x2|x2|x2|x2|x2|x2|x2|x2|x2|x2|x2|t2 v2];
    try discriminate H; try (clear H; compute_calls o).
  cbn in H |- *.
  assert (t1 = t2) as <-.
  { unfold FontVariation.Tag.eqb in H. apply Z.eqb_eq in H.
    destruct t1, t2; cbn in H; congruence. }
  apply withVariation_twice.
Qed.

Lemma withTypeface_twice (o : FontOptions) (x : Typeface_Ptr) :
  withTypeface (withTypeface o x) x = withTypeface o x.
Proof. destruct x as [t|]; compute_calls o. Qed.

Lemma same_call_twice (o : FontOptions) (c : Call) :
  call (call o c) c = call o c.
Proof.
  destruct c as [x|x|x|x|x|x|x|x|x|x|x|x|x|x|t v];
    try (apply overriding_call; reflexivity).
  - apply withTypeface_twice.
  - apply withVariation_twice.
Qed.

End More_calls.

(** X5: two calls neither of which writes a member that the other reads or
    writes can be made in either order, with the same result. *)
Theorem independent_calls_commute (o : FontOptions) (c1 c2 : Call) :
  independent c1 c2 = true ->
  call (call o c1) c2 = call (call o c2) c1.
Proof. apply independent_calls. Qed.

Lemma independent_calls_commute_witness :
  independent (call_withName "Helvetica") (call_withHeight twelve) = true
  /\ withHeight (withName default_members "Helvetica") twelve
     = withName (withHeight default_members twelve) "Helvetica".
Proof.
  split; [reflexivity|].
  apply (independent_calls_commute default_members
           (call_withName "Helvetica") (call_withHeight twelve)).
  reflexivity.
Defined.

(** X6: a later call of the same mutator undoes the earlier one, the
    result being the one of the later call alone, for every mutator but
    [withTypeface]; so do [withHeight] and [withPointHeight] to each
    other, [withVariations] to an earlier [withVariation], and
    [withVariation] to an earlier one for the same tag. *)
Theorem later_call_overrides (o : FontOptions) (c1 c2 : Call) :
  overrides c2 c1 = true ->
  call (call o c1) c2 = call o c2.
Proof. apply overriding_call. Qed.

Lemma later_call_overrides_witness :
  overrides (call_withPointHeight one) (call_withHeight twelve) = true
  /\ withPointHeight (withHeight default_members twelve) one
     = withPointHeight default_members one.
Proof.
  split; [reflexivity|].
  apply (later_call_overrides default_members
           (call_withHeight twelve) (call_withPointHeight one)).
  reflexivity.
Defined.

(** X7: every mutator is idempotent: the same call made twice gives what
    it gives made once, [withTypeface] included. *)
Theorem call_idempotent (o : FontOptions) (c : Call) :
  call (call o c) c = call o c.
Proof. apply same_call_twice. Qed.

(** ** Heights and typeface along a chain of calls *)

Section More_chains.

Lemma both_heights_set_withHeight (o : FontOptions) (x : float) :
  both_heights_set (withHeight o x) = false
  /\ both_heights_set (withPointHeight o x) = false.
Proof.
  destruct o; unfold both_heights_set; cbn. split; [apply andb_false_r | reflexivity].
Qed.

Lemma both_heights_set_call (o : FontOptions) (c : Call) :
  both_heights_set o = false -> both_heights_set (call o c) = false.
Proof.
  intros Ho.
  destruct (decide (M_height ∈ targets c)) as [Hin|Hout].
  - destruct c as [x|x|[tf|]|x|x|x|x|x|x|x|x|x|x|x|t v];
      cbn in Hin; try (exfalso; refute_listed Hin);
      apply both_heights_set_withHeight.
  - unfold both_heights_set.
    destruct (heights_of_call o c Hout) as [-> ->]. exact Ho.
Qed.

Lemma typeface_held_call (o : FontOptions) (c : Call) :
  typeface o <> None -> c <> call_withTypeface None ->
  name (call o c) = name o /\ style (call o c) = style o
  /\ typeface (call o c) <> None.
Proof.
  intros Ho Hc. destruct o as [n s tf f k h p tr hs ao do fe u vs].
  cbn in Ho. destruct tf as [tf0|]; [|now destruct Ho].
  destruct c as [x|x|[t|]|x|x|x|x|x|x|x|x|x|x|x|t v]; cbn;
    try (now destruct Hc); try (split_and!; [reflexivity | reflexivity | discriminate]).
  unfold withVariation; cbn.
  destruct (list_find _ vs) as [[? ?]|]; cbn;
    (split_and!; [reflexivity | reflexivity | discriminate]).
Qed.

End More_chains.

(** X8: the two heights are never both set: after [withHeight] or
    [withPointHeight], whatever the argument, at most one of them is
    non-negative, and no chain of calls, whatever the arguments, sets both
    when they were not both set at its start. *)
Theorem heights_never_both_set (o : FontOptions) (cs : list Call) :
  (forall x, both_heights_set (withHeight o x) = false
             /\ both_heights_set (withPointHeight o x) = false)
  /\ (both_heights_set o = false -> both_heights_set (chain o cs) = false).
Proof.
  split; [intros x; apply both_heights_set_withHeight|].
  revert o. induction cs as [|c cs IH]; intros o Ho; [exact Ho|].
  cbn. apply IH. now apply both_heights_set_call.
Qed.

Lemma heights_never_both_set_witness :
  both_heights_set default_members = false
  /\ both_heights_set
       (chain default_members
          [call_withHeight minus_two; call_withPointHeight nan; call_withHeight twelve])
     = false.
Proof.
  split; [reflexivity|].
  apply (heights_never_both_set default_members
           [call_withHeight minus_two; call_withPointHeight nan; call_withHeight twelve]).
  reflexivity.
Defined.

(** X9: while the options hold a typeface, name and style are frozen: a
    chain of calls without [withTypeface (nullptr)] leaves both as they
    were, calls of [withName], [withStyle] and [withTypeface] with another
    typeface included, and the options still hold a typeface after it. *)
Theorem name_and_style_frozen (o : FontOptions) (cs : list Call) :
  typeface o <> None ->
  Forall (fun c => c <> call_withTypeface None) cs ->
  getName (chain o cs) = getName o
  /\ getStyle (chain o cs) = getStyle o
  /\ getTypeface (chain o cs) <> None.
Proof.
  intros Ho Hcs. revert o Ho.
  induction Hcs as [|c cs Hc _ IH]; intros o Ho; [now split_and!|].
  cbn. destruct (typeface_held_call o c Ho Hc) as (Hn & Hs & Ht).
  destruct (IH (call o c) Ht) as (Hn' & Hs' & Ht').
  unfold getName, getStyle, getTypeface in *.
  rewrite <- Hn, <- Hs. now split_and!.
Qed.

Lemma name_and_style_frozen_witness :
  typeface (withTypeface default_members (Some typeface_A)) <> None
  /\ Forall (fun c => c <> call_withTypeface None)
       [call_withName "X"; call_withTypeface (Some typeface_B)]
  /\ getName (chain (withTypeface default_members (Some typeface_A))
                [call_withName "X"; call_withTypeface (Some typeface_B)])
     = "Arial"%string.
Proof.
  assert (H0 : typeface (withTypeface default_members (Some typeface_A)) <> None)
    by discriminate.
  assert (H1 : Forall (fun c => c <> call_withTypeface None)
                 [call_withName "X"; call_withTypeface (Some typeface_B)]).
  { constructor; [discriminate|]. constructor; [discriminate|]. constructor. }
  split_and!; [exact H0 | exact H1 |].
  apply (name_and_style_frozen _ _ H0 H1).
Defined.

(** X10: setting the typeface to null first, as the comments of [withName]
    and [withStyle] advise, makes them take effect: whatever the options
    held, the name and the style are then the ones given, and no typeface
    is held. *)
Theorem name_and_style_after_null_typeface (o : FontOptions) (n s : string) :
  let r := withStyle (withName (withTypeface o None) n) s in
  getName r = n /\ getStyle r = s /\ getTypeface r = None
  /\ unchanged_except [M_name; M_style; M_typeface] o r.
Proof.
  cbn. split_and!; try (now destruct o).
  intros m Hm. destruct o, m; try reflexivity; exfalso; apply Hm; listed.
Qed.

(** ** The overrides read back *)

(** X11: an override reads back as it was given exactly when it was absent
    or not less than zero; and what the accessor returns, given again,
    reads back the same. *)
Theorem override_round_trip (o : FontOptions) (x : option float) :
  (getAscentOverride (withAscentOverride o x) = x
   <-> match x with None => True | Some v => geb v zero = true end)
  /\ (getDescentOverride (withDescentOverride o x) = x
      <-> match x with None => True | Some v => geb v zero = true end)
  /\ getAscentOverride (withAscentOverride o (getAscentOverride o))
     = getAscentOverride o
  /\ getDescentOverride (withDescentOverride o (getDescentOverride o))
     = getDescentOverride o.
Proof.
  destruct o as [n s tf f k h p tr hs ao do fe u vs].
  unfold getAscentOverride, getDescentOverride; cbn. split_and!.
  - destruct x as [v|]; cbn; [|tauto].
    destruct (geb v zero); split; congruence.
  - destruct x as [v|]; cbn; [|tauto].
    destruct (geb v zero); split; congruence.
  - destruct (geb ao zero) eqn:E; cbn; [now rewrite E | reflexivity].
  - destruct (geb do zero) eqn:E; cbn; [now rewrite E | reflexivity].
Qed.



(** ** Tags and axis settings as keys *)

Section More_comparisons.

Ltac fold_pos_compare :=
  repeat match goal with
  | |- context [Pos.compare_cont Eq ?x ?y] =>
      change (Pos.compare_cont Eq x y) with (Pos.compare x y)
  end.

Ltac split_compares :=
  repeat match goal with
  | |- context [Z.compare ?x ?y] => destruct (Z.compare_spec x y)
  | |- context [Pos.compare ?x ?y] => destruct (Pos.compare_spec x y)
  end.

Lemma float_less_trans (a b c : float) :
  Float32.ltb a b = true -> Float32.ltb b c = true -> Float32.ltb a c = true.
Proof.
  unfold Float32.ltb, SFltb.
  destruct a as [sa|sa| |sa ma ea], b as [sb|sb| |sb mb eb], c as [sc|sc| |sc mc ec];
    try (destruct sa); try (destruct sb); try (destruct sc); cbn;
    try easy; fold_pos_compare; split_compares; cbn; try easy; try lia.
Qed.

Lemma float_equal_trans (a b c : float) :
  Float32.eqb a b = true -> Float32.eqb b c = true -> Float32.eqb a c = true.
Proof.
  unfold Float32.eqb, SFeqb.
  destruct a as [sa|sa| |sa ma ea], b as [sb|sb| |sb mb eb], c as [sc|sc| |sc mc ec];
    try (destruct sa); try (destruct sb); try (destruct sc); cbn;
    try easy; fold_pos_compare; split_compares; cbn; try easy; try lia.
Qed.

Lemma float_equal_sym (a b : float) : Float32.eqb a b = Float32.eqb b a.
Proof.
  unfold Float32.eqb, SFeqb. rewrite (SFcompare_swap b a).
  now destruct (SFcompare b a) as [[| |]|].
Qed.

Lemma float_equal_self (a : float) : Float32.eqb a a = negb (is_nan a).
Proof.
  destruct (is_nan a) eqn:E; cbn.
  - now destruct a.
  - now apply eqb_refl.
Qed.

Lemma float_less_irrefl (a : float) : Float32.ltb a a = false.
Proof.
  destruct (Float32.ltb a a) eqn:E; [|reflexivity].
  now rewrite (float_less_asym _ _ E) in E.
Qed.

Lemma Tag_eqb_eq (a b : FontVariation.Tag.Tag) :
  FontVariation.Tag.eqb a b = true <-> a = b.
Proof.
  unfold FontVariation.Tag.eqb. rewrite Z.eqb_eq.
  destruct a, b; cbn. split; congruence.
Qed.

Lemma FontVariation_less_trans (p q r : FontVariation) :
  FontVariation.ltb p q = true -> FontVariation.ltb q r = true ->
  FontVariation.ltb p r = true.
Proof.
  unfold FontVariation.ltb, FontVariation.tie_lt.
  repeat match goal with
  | |- context [Z.ltb ?x ?y] => destruct (Z.ltb_spec x y)
  end; try easy; try lia.
  apply float_less_trans.
Qed.

End More_comparisons.

(** X13: the order of tags is a strict total order on the integers they
    hold, and [==] holds of two tags exactly when they are the same tag:
    no tag is less than itself, the order is transitive, and of [a < b],
    [a == b], [b < a] exactly one holds. *)
Theorem Tag_strict_total_order (a b c : FontVariation.Tag.Tag) :
  (FontVariation.Tag.eqb a b = true <-> a = b)
  /\ FontVariation.Tag.ltb a a = false
  /\ (FontVariation.Tag.ltb a b = true -> FontVariation.Tag.ltb b c = true ->
      FontVariation.Tag.ltb a c = true)
  /\ exactly_one_of (FontVariation.Tag.ltb a b) (FontVariation.Tag.eqb a b)
       (FontVariation.Tag.ltb b a).
Proof.
  split_and!.
  - apply Tag_eqb_eq.
  - apply Z.ltb_irrefl.
  - unfold FontVariation.Tag.ltb. rewrite !Z.ltb_lt. lia.
  - apply (@exactly_one_of_less_equal Z Z_Comparable Z_Lawful
             (FontVariation.Tag.tag a) (FontVariation.Tag.tag b)); exact I.
Qed.

Lemma Tag_strict_total_order_witness :
  FontVariation.Tag.ltb wdth wght = true
  /\ FontVariation.Tag.ltb wght (FontVariation.Tag.of_uint32 4294967295) = true
  /\ FontVariation.Tag.ltb wdth (FontVariation.Tag.of_uint32 4294967295) = true.
Proof.
  pose proof (Tag_strict_total_order wdth wght
                (FontVariation.Tag.of_uint32 4294967295)) as (_ & _ & Htrans & _).
  split_and!; [reflexivity | reflexivity |].
  apply Htrans; reflexivity.
Defined.

(** X14: the order of axis settings is a strict order whatever the values,
    a NaN included: no setting is less than itself, [p < q] excludes
    [q < p], the order is transitive, and two settings that are [==] are
    not ordered either way. *)
Theorem FontVariation_strict_order (p q r : FontVariation) :
  FontVariation.ltb p p = false
  /\ (FontVariation.ltb p q = true -> FontVariation.ltb q p = false)
  /\ (FontVariation.ltb p q = true -> FontVariation.ltb q r = true ->
      FontVariation.ltb p r = true)
  /\ (FontVariation.eqb p q = true ->
      FontVariation.ltb p q = false /\ FontVariation.ltb q p = false).
Proof.
  split_and!.
  - unfold FontVariation.ltb, FontVariation.tie_lt.
    rewrite Z.ltb_irrefl. apply float_less_irrefl.
  - apply (@less_asym FontVariation FontVariation_Comparable FontVariation_Lawful p q).
  - apply FontVariation_less_trans.
  - apply (@equal_not_less FontVariation FontVariation_Comparable
             FontVariation_Lawful p q).
Qed.

Lemma FontVariation_strict_order_witness :
  FontVariation.ltb (FontVariation.Build wdth nan) (FontVariation.Build wght zero) = true
  /\ FontVariation.ltb (FontVariation.Build wght zero) (FontVariation.Build wght one) = true
  /\ FontVariation.ltb (FontVariation.Build wdth nan) (FontVariation.Build wght one) = true.
Proof.
  pose proof (FontVariation_strict_order (FontVariation.Build wdth nan)
                (FontVariation.Build wght zero) (FontVariation.Build wght one))
    as (_ & _ & Htrans & _).
  split_and!; [reflexivity | reflexivity |].
  apply Htrans; reflexivity.
Defined.

(** X15: of two axis settings whose values are not NaN exactly one of
    [p < q], [p == q], [q < p] holds; when the tags are the same and one
    value is a NaN, none of the three holds. *)
Theorem FontVariation_trichotomy (p q : FontVariation) :
  (is_nan (FontVariation.value p) = false ->
   is_nan (FontVariation.value q) = false ->
   exactly_one_of (FontVariation.ltb p q) (FontVariation.eqb p q)
     (FontVariation.ltb q p))
  /\ (FontVariation.tag p = FontVariation.tag q ->
      is_nan (FontVariation.value p) = true \/ is_nan (FontVariation.value q) = true ->
      FontVariation.ltb p q = false /\ FontVariation.eqb p q = false
      /\ FontVariation.ltb q p = false).
Proof.
  split.
  - intros Hp Hq.
    apply (@exactly_one_of_less_equal FontVariation FontVariation_Comparable
             FontVariation_Lawful p q); assumption.
  - intros Ht Hnan.
    assert (N : SFcompare (FontVariation.value p) (FontVariation.value q) = None)
      by now apply SFcompare_nan.
    unfold FontVariation.ltb, FontVariation.eqb, FontVariation.tie_lt,
      Float32.ltb, Float32.eqb, SFltb, SFeqb.
    rewrite (SFcompare_swap (FontVariation.value p) (FontVariation.value q)), N, Ht.
    rewrite Z.ltb_irrefl. cbn. split_and!; [reflexivity | apply andb_false_r | reflexivity].
Qed.

Lemma FontVariation_trichotomy_witness :
  is_nan (FontVariation.value (FontVariation.Build wght zero)) = false
  /\ is_nan (FontVariation.value (FontVariation.Build wght one)) = false
  /\ exactly_one_of
       (FontVariation.ltb (FontVariation.Build wght zero) (FontVariation.Build wght one))
       (FontVariation.eqb (FontVariation.Build wght zero) (FontVariation.Build wght one))
       (FontVariation.ltb (FontVariation.Build wght one) (FontVariation.Build wght zero)).
Proof.
  pose proof (FontVariation_trichotomy (FontVariation.Build wght zero)
                (FontVariation.Build wght one)) as (Htri & _).
  split_and!; [reflexivity | reflexivity |].
  apply Htri; reflexivity.
Defined.

(** X16: [==] of axis settings is symmetric and transitive, and a setting
    is [==] to itself exactly when its value is not a NaN, [!=] to itself
    exactly when it is; two settings that are [==] carry the same tag. *)
Theorem FontVariation_equality (p q r : FontVariation) :
  FontVariation.eqb p q = FontVariation.eqb q p
  /\ (FontVariation.eqb p q = true -> FontVariation.eqb q r = true ->
      FontVariation.eqb p r = true)
  /\ FontVariation.eqb p p = negb (is_nan (FontVariation.value p))
  /\ FontVariation.neb p p = is_nan (FontVariation.value p)
  /\ (FontVariation.eqb p q = true -> FontVariation.tag p = FontVariation.tag q).
Proof.
  unfold FontVariation.neb, FontVariation.eqb, FontVariation.Tag.eqb. split_and!.
  - now rewrite Z.eqb_sym, float_equal_sym.
  - rewrite !andb_true_iff, !Z.eqb_eq. intros [E1 F1] [E2 F2]. split.
    + congruence.
    + now apply float_equal_trans with (FontVariation.value q).
  - now rewrite Z.eqb_refl, float_equal_self.
  - rewrite Z.eqb_refl, float_equal_self. cbn. apply negb_involutive.
  - rewrite andb_true_iff, Z.eqb_eq. intros [E _].
    destruct (FontVariation.tag p), (FontVariation.tag q); cbn in E; congruence.
Qed.

Lemma FontVariation_equality_witness :
  FontVariation.eqb (FontVariation.Build wght zero)
    (FontVariation.Build wght (S754_zero true)) = true
  /\ FontVariation.tag (FontVariation.Build wght zero)
     = FontVariation.tag (FontVariation.Build wght (S754_zero true)).
Proof.
  pose proof (FontVariation_equality (FontVariation.Build wght zero)
                (FontVariation.Build wght (S754_zero true))
                (FontVariation.Build wght zero)) as (_ & _ & _ & _ & Htag).
  split; [reflexivity|].
  apply Htag. reflexivity.
Defined.

(** X17: the constructor from an [int32] stores the integer itself when it
    is not negative and the integer plus 2^32 when it is, always a 32-bit
    unsigned value, and two different [int32] give two different tags. *)
Theorem make_int32_tag (a b : Z) (x y : float) :
  is_int32 a -> is_int32 b ->
  let ta := FontVariation.Tag.tag (FontVariation.tag (FontVariation.make_int32 a x)) in
  let tb := FontVariation.Tag.tag (FontVariation.tag (FontVariation.make_int32 b y)) in
  0 <= ta < 2 ^ 32
  /\ ta = (if a <? 0 then a + 2 ^ 32 else a)
  /\ (ta = tb -> a = b)
  /\ FontVariation.value (FontVariation.make_int32 a x) = x.
Proof.
  unfold is_int32. intros Ha Hb. cbn.
  assert (W : forall v, - 2 ^ 31 <= v < 2 ^ 31 ->
                v mod 2 ^ 32 = if v <? 0 then v + 2 ^ 32 else v).
  { intros v Hv. destruct (Z.ltb_spec v 0).
    - rewrite <- (Z.mod_add v 1) by lia. apply Z.mod_small. lia.
    - apply Z.mod_small. lia. }
  rewrite (W a Ha), (W b Hb).
  destruct (Z.ltb_spec a 0), (Z.ltb_spec b 0); split_and!; try reflexivity; lia.
Qed.

Lemma make_int32_tag_witness :
  is_int32 (-1)
  /\ FontVariation.Tag.tag (FontVariation.tag (FontVariation.make_int32 (-1) one))
     = 4294967295.
Proof.
  assert (H : is_int32 (-1)) by (unfold is_int32; lia).
  split; [exact H|].
  apply (make_int32_tag (-1) (-1) one one H H).
Defined.

(** ** Writing back what was read *)

(** X18: giving a mutator the value its accessor returns changes nothing,
    for name, style, typeface, fallbacks, the fallback flag, kerning,
    horizontal scale, underline, metrics kind and variations; for a
    height it changes nothing exactly when the other height is the -1 of
    "unset", and for an override exactly when the stored value is not less
    than zero or is that -1. *)
Theorem write_back_what_was_read (o : FontOptions) :
  withName o (getName o) = o
  /\ withStyle o (getStyle o) = o
  /\ withTypeface o (getTypeface o) = o
  /\ withFallbacks o (getFallbacks o) = o
  /\ withFallbackEnabled o (getFallbackEnabled o) = o
  /\ withKerningFactor o (getKerningFactor o) = o
  /\ withHorizontalScale o (getHorizontalScale o) = o
  /\ withUnderline o (getUnderline o) = o
  /\ withMetricsKind o (getMetricsKind o) = o
  /\ withVariations o (getVariations o) = o
  /\ (withHeight o (getHeight o) = o <-> pointHeight o = minus_one)
  /\ (withPointHeight o (getPointHeight o) = o <-> height o = minus_one)
  /\ (withAscentOverride o (getAscentOverride o) = o
      <-> geb (ascentOverride o) zero = true \/ ascentOverride o = minus_one)
  /\ (withDescentOverride o (getDescentOverride o) = o
      <-> geb (descentOverride o) zero = true \/ descentOverride o = minus_one).
Proof.
  destruct o as [n s tf f k h p tr hs ao do fe u vs].
  unfold getAscentOverride, getDescentOverride. cbn.
  split_and!; try (destruct tf; reflexivity).
  - split; [intros [= ->] | intros ->]; reflexivity.
  - split; [intros [= ->] | intros ->]; reflexivity.
  - destruct (geb ao zero) eqn:E; cbn.
    + split; [now left | reflexivity].
    + split; [intros [= <-]; now right | intros [?| ->]; [discriminate | reflexivity]].
  - destruct (geb do zero) eqn:E; cbn.
    + split; [now left | reflexivity].
    + split; [intros [= <-]; now right | intros [?| ->]; [discriminate | reflexivity]].
Qed.
